(** * IoT box management API: validation, record store and list/export queries

    A shallow embedding of [main.py].  Python values are modelled as follows.

    - [str] is [string]; the development covers text over the ASCII range, on
      which [upper] below is Python's [str.upper] and [is_digit] is [\d].
    - [Optional[str]] is [option string]; a [BoxUpdate] field additionally
      records whether it was set at all ([exclude_unset=True]).
    - [datetime] is a point on the integer time line ([Z]); [int] is [Z].
    - The table [iot_boxes] is the list of its rows in primary-key order
      together with the auto-increment counter as MySQL, the engine of the
      default [DATABASE_URL], keeps it.  Its [NOT NULL] and [UNIQUE]
      column constraints are checked when a unit of work is committed; column
      lengths are not modelled.  SQL [=] is string equality.
    - What the SQL engine and the datetime formatter decide on their own
      (how [LIKE] matches, in which order rows with equal sort keys come back,
      how a timestamp is printed) is an interface, [Backend]; the order of
      rows with equal sort keys is the engine's choice statement by
      statement, so that two pages and the export may each see another one.
    - A request is the parsed body or the query parameters, an answer is
      the value the handler returns; the serialization of an answer into a
      response is not part of the development. *)

From Stdlib Require Import ZArith List Bool Ascii String Lia Permutation Sorted.
Import ListNotations.

Open Scope string_scope.
Open Scope list_scope.
Open Scope Z_scope.

(** ** Text: [str.upper] and the two anchored patterns *)

Module Text.

Definition in_range (lo hi : N) (c : ascii) : bool :=
  let n := N_of_ascii c in (N.leb lo n && N.leb n hi)%bool.

Definition is_lower (c : ascii) : bool := in_range 97 122 c.

Definition upper_char (c : ascii) : ascii :=
  if is_lower c then ascii_of_N (N_of_ascii c - 32) else c.

(** [v.upper()] *)
Fixpoint upper (s : string) : string :=
  match s with
  | EmptyString => EmptyString
  | String c r => String (upper_char c) (upper r)
  end.

(** [\d], on the ASCII range *)
Definition is_digit (c : ascii) : bool := in_range 48 57 c.

(** [[0-9A-Fa-f]] *)
Definition is_hex (c : ascii) : bool :=
  (is_digit c || in_range 65 70 c || in_range 97 102 c)%bool.

(** [[:-]] *)
Definition is_sep (c : ascii) : bool :=
  (Ascii.eqb c ":" || Ascii.eqb c "-")%bool.

Definition newline : ascii := ascii_of_N 10.

(** [$] without [re.MULTILINE]: the end of the string, or just before a
    line feed that is the last character. *)
Definition at_end (s : string) : bool :=
  match s with
  | EmptyString => true
  | String c EmptyString => Ascii.eqb c newline
  | _ => false
  end.

(** [([0-9A-Fa-f]{2}[:-]){n}], returning what is left of the subject. *)
Fixpoint match_octet_sep (n : nat) (s : string) : option string :=
  match n with
  | O => Some s
  | S n' =>
      match s with
      | String a (String b (String c r)) =>
          if (is_hex a && is_hex b && is_sep c)%bool
          then match_octet_sep n' r else None
      | _ => None
      end
  end.

(** [re.match(r'^([0-9A-Fa-f]{2}[:-]){5}([0-9A-Fa-f]{2})$', v)] *)
Definition re_match_mac (v : string) : bool :=
  match match_octet_sep 5 v with
  | Some (String a (String b r)) => (is_hex a && is_hex b && at_end r)%bool
  | _ => false
  end.

(** [\d{1,3}]: digits and the character that may follow a group are
    disjoint, so the greedy match is the only one that can succeed. *)
Definition match_digits (s : string) : option string :=
  match s with
  | String a r1 =>
      if is_digit a then
        match r1 with
        | String b r2 =>
            if is_digit b then
              match r2 with
              | String c r3 => if is_digit c then Some r3 else Some r2
              | EmptyString => Some r2
              end
            else Some r1
        | EmptyString => Some r1
        end
      else None
  | EmptyString => None
  end.

(** [(\d{1,3}\.){n}] *)
Fixpoint match_digits_dot (n : nat) (s : string) : option string :=
  match n with
  | O => Some s
  | S n' =>
      match match_digits s with
      | Some (String d r) =>
          if Ascii.eqb d "." then match_digits_dot n' r else None
      | _ => None
      end
  end.

(** [re.match(r'^(\d{1,3}\.){3}\d{1,3}$', v)] *)
Definition re_match_ip (v : string) : bool :=
  match match_digits_dot 3 v with
  | Some r =>
      match match_digits r with
      | Some r' => at_end r'
      | None => false
      end
  | None => false
  end.

(** Truthiness of a [str]: [if v] *)
Definition truthy (s : string) : bool :=
  match s with EmptyString => false | _ => true end.

End Text.

Import Text.

(** ** Results and the error taxonomy *)

Inductive result (E A : Type) : Type :=
| Ok (a : A)
| Err (e : E).
Arguments Ok {E A} a.
Arguments Err {E A} e.

(** A [ValueError] raised by a validator, or pydantic's own "field required". *)
Inductive ValidationError : Type :=
| MissingRequired
| InvalidFormat.

Inductive FieldName : Type :=
| F_mac_address | F_ip_address | F_main_equipment | F_location
| F_process | F_manager | F_note.

(** What a request can end in other than success: 422 with the list of
    field errors, 400, 404, the store refusing the commit, or 422 for a query
    parameter outside its declared bounds. *)
Inductive ApiError : Type :=
| Unprocessable (errs : list (FieldName * ValidationError))
| DuplicateKey
| NotFound
| IntegrityError
| InvalidQuery.

(** ** Validation layer *)

Module BoxBase.

(** [BoxBase.validate_mac] *)
Definition validate_mac (v : string) : result ValidationError string :=
  if negb (truthy v) then Err MissingRequired
  else if negb (re_match_mac v) then Err InvalidFormat
  else Ok (upper v).

(** [BoxBase.validate_ip] *)
Definition validate_ip (v : option string)
  : result ValidationError (option string) :=
  match v with
  | None => Ok None
  | Some s => if negb (re_match_ip s) then Err InvalidFormat else Ok (Some s)
  end.

(** [BoxBase.validate_process] *)
Definition validate_process (v : string) : string :=
  if truthy v then upper v else v.

End BoxBase.

(** The JSON body of [POST /boxes]; [None] is a key that is absent. *)
Module Body.
Record CreateRequest : Type := mkCreateRequest {
  mac_address : option string;
  ip_address : option string;
  main_equipment : option string;
  location : option string;
  process : option string;
  manager : option string;
  note : option string
}.
End Body.

(** A validated [BoxCreate]. *)
Module Create.
Record BoxCreate : Type := mkBoxCreate {
  mac_address : string;
  ip_address : option string;
  main_equipment : option string;
  location : option string;
  process : string;
  manager : option string;
  note : option string
}.
End Create.

Definition field_errors {A : Type} (f : FieldName)
  (r : result ValidationError A) : list (FieldName * ValidationError) :=
  match r with
  | Ok _ => []
  | Err e => [(f, e)]
  end.

(** Building a [BoxCreate] from a request body: the two required fields must
    be there, each validator runs on the field it decorates, and every
    failure is reported. *)
Definition parse_BoxCreate (r : Body.CreateRequest)
  : result (list (FieldName * ValidationError)) Create.BoxCreate :=
  let mac :=
    match Body.mac_address r with
    | None => Err MissingRequired
    | Some v => BoxBase.validate_mac v
    end in
  let ip := BoxBase.validate_ip (Body.ip_address r) in
  let proc :=
    match Body.process r with
    | None => Err MissingRequired
    | Some v => Ok (BoxBase.validate_process v)
    end in
  match mac, ip, proc with
  | Ok m, Ok i, Ok p =>
      Ok (Create.mkBoxCreate m i (Body.main_equipment r) (Body.location r)
            p (Body.manager r) (Body.note r))
  | _, _, _ =>
      Err (field_errors F_mac_address mac ++ field_errors F_ip_address ip
             ++ field_errors F_process proc)
  end.

(** A [BoxUpdate] field: never set, or set by the payload (to a string or to
    [null]).  [model_fields_set] is the fields that are [Provided]. *)
Inductive Field (A : Type) : Type :=
| Unset
| Provided (v : option A).
Arguments Unset {A}.
Arguments Provided {A} v.

(** Reading the attribute: an unset field has its default, [None]. *)
Definition attr {A : Type} (f : Field A) : option A :=
  match f with
  | Unset => None
  | Provided v => v
  end.

Module Update.
Record BoxUpdate : Type := mkBoxUpdate {
  mac_address : Field string;
  ip_address : Field string;
  main_equipment : Field string;
  location : Field string;
  process : Field string;
  manager : Field string;
  note : Field string
}.

(** [BoxUpdate.validate_mac] *)
Definition validate_mac (v : option string)
  : result ValidationError (option string) :=
  match v with
  | None => Ok None
  | Some s =>
      if negb (truthy s) then Err MissingRequired
      else if negb (re_match_mac s) then Err InvalidFormat
      else Ok (Some (upper s))
  end.

(** [BoxUpdate.validate_process] *)
Definition validate_process (v : option string) : option string :=
  match v with
  | Some s => if truthy s then Some (upper s) else v
  | None => v
  end.

(** Validators run on the fields the payload provides. *)
Definition parse (u : BoxUpdate)
  : result (list (FieldName * ValidationError)) BoxUpdate :=
  let mac :=
    match mac_address u with
    | Unset => Ok Unset
    | Provided v =>
        match validate_mac v with
        | Ok v' => Ok (Provided v')
        | Err e => Err e
        end
    end in
  let proc :=
    match process u with
    | Unset => Unset
    | Provided v => Provided (validate_process v)
    end in
  match mac with
  | Ok m =>
      Ok (mkBoxUpdate m (ip_address u) (main_equipment u) (location u)
            proc (manager u) (note u))
  | Err _ => Err (field_errors F_mac_address mac)
  end.
End Update.

(** ** Record store *)

Module DB.
(** A row of [iot_boxes]. *)
Record BoxDB : Type := mkBoxDB {
  id : Z;
  mac_address : string;
  ip_address : option string;
  main_equipment : option string;
  location : option string;
  process : string;
  manager : option string;
  note : option string;
  created_at : Z;
  updated_at : Z
}.
End DB.

Abbreviation BoxDB := DB.BoxDB.

Record Store : Type := mkStore {
  rows : list BoxDB;
  next_id : Z
}.

(** Newest first. *)
Definition newest_first (a b : BoxDB) : Prop :=
  DB.created_at a >= DB.created_at b.

(** A SELECT on [iot_boxes] as the handlers build it: the filters that
    were applied, and the OFFSET and LIMIT of a list page, which the export
    does not have. *)
Record Select : Type := mkSelect {
  where_search : option string;
  where_process : option string;
  offset_limit : option (Z * Z)
}.

(** The filter that [if search:] or [if process:] lets through. *)
Definition applied (f : option string) : option string :=
  match f with
  | Some s => if truthy s then Some s else None
  | None => None
  end.

(** What the SQL engine and [datetime] contribute to a query. *)
Class Backend : Type := {
  (** [column.contains(s)], that is [column LIKE '%' || s || '%'], on a
      column value that is not [NULL] *)
  contains : string -> string -> bool;
  (** [ORDER BY created_at DESC] on the result set of a statement; what
      the order of rows with equal [created_at] is may depend on the
      statement *)
  order_by_created_at_desc : Select -> list BoxDB -> list BoxDB;
  order_by_perm :
    forall q l, Permutation (order_by_created_at_desc q l) l;
  order_by_sorted :
    forall q l,
      StronglySorted newest_first (order_by_created_at_desc q l);
  (** [strftime("%Y-%m-%d %H:%M:%S")] *)
  strftime : Z -> string
}.

(** [UNIQUE (mac_address)], checked for row [b] against the other rows. *)
Definition violates_unique (rs : list BoxDB) (b : BoxDB) : bool :=
  existsb (fun r => negb (DB.id r =? DB.id b)
                    && String.eqb (DB.mac_address r) (DB.mac_address b))%bool rs.

(** [db.query(BoxDB).filter(BoxDB.mac_address == m).first()] *)
Definition first_by_mac (rs : list BoxDB) (m : string) : option BoxDB :=
  find (fun r => String.eqb (DB.mac_address r) m) rs.

(** [db.query(BoxDB).filter(BoxDB.id == box_id).first()] *)
Definition first_by_id (rs : list BoxDB) (box_id : Z) : option BoxDB :=
  find (fun r => DB.id r =? box_id) rs.

(** [create_box].  [now_c] and [now_u] are the two readings of the clock that
    the column defaults of [created_at] and [updated_at] take. *)
Definition create_box (st : Store) (box : Create.BoxCreate) (now_c now_u : Z)
  : result ApiError (Store * BoxDB) :=
  match first_by_mac (rows st) (Create.mac_address box) with
  | Some _ => Err DuplicateKey
  | None =>
      let db_box :=
        DB.mkBoxDB (next_id st) (Create.mac_address box)
          (Create.ip_address box) (Create.main_equipment box)
          (Create.location box) (Create.process box) (Create.manager box)
          (Create.note box) now_c now_u in
      if violates_unique (rows st) db_box then Err IntegrityError
      else Ok (mkStore (rows st ++ [db_box]) (next_id st + 1), db_box)
  end.

(** [POST /boxes]: the body is parsed into a [BoxCreate] before the handler
    runs. *)
Definition post_boxes (st : Store) (body : Body.CreateRequest) (now_c now_u : Z)
  : result ApiError (Store * BoxDB) :=
  match parse_BoxCreate body with
  | Err errs => Err (Unprocessable errs)
  | Ok box => create_box st box now_c now_u
  end.

(** [setattr] on a [NOT NULL] column; [None] is a [NULL] the commit refuses. *)
Definition set_required (f : Field string) (old : string) : option string :=
  match f with
  | Unset => Some old
  | Provided v => v
  end.

(** [setattr] on a nullable column. *)
Definition set_nullable (f : Field string) (old : option string)
  : option string :=
  match f with
  | Unset => old
  | Provided v => v
  end.

Definition replace_row (rs : list BoxDB) (b : BoxDB) : list BoxDB :=
  map (fun r => if DB.id r =? DB.id b then b else r) rs.

(** [update_box] *)
Definition update_box (st : Store) (box_id : Z) (box_update : Update.BoxUpdate)
  (now : Z) : result ApiError (Store * BoxDB) :=
  match first_by_id (rows st) box_id with
  | None => Err NotFound
  | Some db_box =>
      let collides :=
        match attr (Update.mac_address box_update) with
        | Some m =>
            (truthy m && negb (String.eqb m (DB.mac_address db_box)))%bool
            && match first_by_mac (rows st) m with
               | Some _ => true
               | None => false
               end
        | None => false
        end in
      if collides then Err DuplicateKey
      else
        match set_required (Update.mac_address box_update)
                (DB.mac_address db_box),
              set_required (Update.process box_update) (DB.process db_box)
        with
        | Some m, Some p =>
            let b :=
              DB.mkBoxDB (DB.id db_box) m
                (set_nullable (Update.ip_address box_update)
                   (DB.ip_address db_box))
                (set_nullable (Update.main_equipment box_update)
                   (DB.main_equipment db_box))
                (set_nullable (Update.location box_update)
                   (DB.location db_box))
                p
                (set_nullable (Update.manager box_update) (DB.manager db_box))
                (set_nullable (Update.note box_update) (DB.note db_box))
                (DB.created_at db_box) now in
            if violates_unique (rows st) b then Err IntegrityError
            else Ok (mkStore (replace_row (rows st) b) (next_id st), b)
        | _, _ => Err IntegrityError
        end
  end.

(** [PUT /boxes/{box_id}] *)
Definition put_boxes (st : Store) (box_id : Z) (body : Update.BoxUpdate)
  (now : Z) : result ApiError (Store * BoxDB) :=
  match Update.parse body with
  | Err errs => Err (Unprocessable errs)
  | Ok box_update => update_box st box_id box_update now
  end.

(** ** Query and pagination engine *)

Record PaginatedResponse : Type := mkPaginatedResponse {
  total : Z;
  page : Z;
  page_size : Z;
  total_pages : Z;
  items : list BoxDB
}.

(** A spreadsheet cell. *)
Inductive Cell : Type :=
| CInt (n : Z)
| CStr (s : string).

(** [x or ""] *)
Definition or_empty (x : option string) : string :=
  match x with
  | Some s => if truthy s then s else ""
  | None => ""
  end.

Section Queries.

Context {backend : Backend}.

(** [column.contains(s)] on a nullable column: [NULL] is no match. *)
Definition contains_opt (col : option string) (s : string) : bool :=
  match col with
  | Some v => contains v s
  | None => false
  end.

(** [get_boxes] *)
Definition get_boxes (st : Store) (page page_size : option Z)
  (search process : option string) : result ApiError PaginatedResponse :=
  let page := match page with Some p => p | None => 1 end in
  let page_size := match page_size with Some p => p | None => 50 end in
  if ((page <? 1) || (page_size <? 1) || (1000 <? page_size))%bool
  then Err InvalidQuery
  else
    let query := rows st in
    let query :=
      match search with
      | Some search =>
          if truthy search then
            filter (fun b =>
                      contains (DB.mac_address b) search
                      || contains_opt (DB.ip_address b) search
                      || contains_opt (DB.main_equipment b) search
                      || contains_opt (DB.location b) search
                      || contains (DB.process b) search
                      || contains_opt (DB.manager b) search)%bool query
          else query
      | None => query
      end in
    let query :=
      match process with
      | Some process =>
          if truthy process
          then filter (fun b => String.eqb (DB.process b) process) query
          else query
      | None => query
      end in
    let total := Z.of_nat (List.length query) in
    let offset := (page - 1) * page_size in
    let items :=
      firstn (Z.to_nat page_size)
        (skipn (Z.to_nat offset)
         (order_by_created_at_desc
            (mkSelect (applied search) (applied process)
               (Some (offset, page_size))) query)) in
    let total_pages := (total + page_size - 1) / page_size in
    Ok (mkPaginatedResponse total page page_size total_pages items).

Definition headers : list Cell :=
  [CStr "ID"; CStr "MAC 주소"; CStr "IP 주소"; CStr "메인 설비"; CStr "위치";
   CStr "공정"; CStr "담당자"; CStr "비고"; CStr "등록일"; CStr "수정일"].

(** The row appended to the sheet for one box. *)
Definition sheet_row (box : BoxDB) : list Cell :=
  [CInt (DB.id box);
   CStr (DB.mac_address box);
   CStr (or_empty (DB.ip_address box));
   CStr (or_empty (DB.main_equipment box));
   CStr (or_empty (DB.location box));
   CStr (DB.process box);
   CStr (or_empty (DB.manager box));
   CStr (or_empty (DB.note box));
   CStr (strftime (DB.created_at box));
   CStr (strftime (DB.updated_at box))].

(** The [boxes] that [export_to_excel] reads from the store. *)
Definition export_boxes (st : Store) (search process : option string)
  : list BoxDB :=
  let query := rows st in
  let query :=
    match search with
    | Some search =>
        if truthy search then
          filter (fun b =>
                    contains (DB.mac_address b) search
                    || contains_opt (DB.ip_address b) search
                    || contains_opt (DB.main_equipment b) search
                    || contains_opt (DB.location b) search
                    || contains (DB.process b) search
                    || contains_opt (DB.manager b) search)%bool query
        else query
    | None => query
    end in
  let query :=
    match process with
    | Some process =>
        if truthy process
        then filter (fun b => String.eqb (DB.process b) process) query
        else query
    | None => query
    end in
  order_by_created_at_desc
  (mkSelect (applied search) (applied process) None) query.

(** [export_to_excel]: the rows of the worksheet, header first. *)
Definition export_to_excel (st : Store) (search process : option string)
  : list (list Cell) :=
  headers :: map sheet_row (export_boxes st search process).

End Queries.

(** ** Maintenance *)

Definition set_process (box : BoxDB) (new_process : string) (now : Z) : BoxDB :=
  DB.mkBoxDB (DB.id box) (DB.mac_address box) (DB.ip_address box)
    (DB.main_equipment box) (DB.location box) new_process (DB.manager box)
    (DB.note box) (DB.created_at box) now.

(** The loop of [normalize_processes] over [boxes].  [utcnow k] is the
    clock as read after [k] earlier readings in this request; one reading is
    taken for each row that changes. *)
Fixpoint normalize_loop (utcnow : Z -> Z) (boxes : list BoxDB)
  (updated_count : Z) : list BoxDB * Z :=
  match boxes with
  | [] => ([], updated_count)
  | box :: rest =>
      if truthy (DB.process box) then
        let new_process := upper (DB.process box) in
        if negb (String.eqb (DB.process box) new_process) then
          let (rest', n) := normalize_loop utcnow rest (updated_count + 1) in
          (set_process box new_process (utcnow updated_count) :: rest', n)
        else
          let (rest', n) := normalize_loop utcnow rest updated_count in
          (box :: rest', n)
      else
        let (rest', n) := normalize_loop utcnow rest updated_count in
        (box :: rest', n)
  end.

(** [normalize_processes]: the store after the commit and the count that the
    message reports. *)
Definition normalize_processes (st : Store) (utcnow : Z -> Z) : Store * Z :=
  let (boxes, updated_count) := normalize_loop utcnow (rows st) 0 in
  (mkStore boxes (next_id st), updated_count).

(** ** A reference backend

    Substring search and an insertion sort on [created_at] that keeps rows
    with equal keys in the order of the scan, the primary key; it shows
    that the interface is inhabited and serves to run the operations on
    concrete stores. *)

Module Reference.

Fixpoint prefix_of (p s : string) : bool :=
  match p, s with
  | EmptyString, _ => true
  | String a p', String b s' => (Ascii.eqb a b && prefix_of p' s')%bool
  | String _ _, EmptyString => false
  end.

Fixpoint substring_of (p s : string) : bool :=
  (prefix_of p s ||
   match s with
   | EmptyString => false
   | String _ s' => substring_of p s'
   end)%bool.

Fixpoint insert_desc (b : BoxDB) (l : list BoxDB) : list BoxDB :=
  match l with
  | [] => [b]
  | x :: r =>
      if DB.created_at x <=? DB.created_at b then b :: l
      else x :: insert_desc b r
  end.

Definition sort_desc (l : list BoxDB) : list BoxDB :=
  fold_right insert_desc [] l.

Definition digit (n : Z) : ascii := ascii_of_N (48 + Z.to_N (n mod 10)).

Definition pad2 (n : Z) : string :=
  String (digit (n / 10)) (String (digit n) EmptyString).

Definition pad4 (n : Z) : string :=
  String (digit (n / 1000)) (String (digit (n / 100)) (pad2 n)).

(** Year, month and day of the proleptic Gregorian calendar for a number
    of days since 1970-01-01. *)
Definition civil_from_days (days : Z) : Z * Z * Z :=
  let z := days + 719468 in
  let era := z / 146097 in
  let doe := z - era * 146097 in
  let yoe := (doe - doe / 1460 + doe / 36524 - doe / 146096) / 365 in
  let doy := doe - (365 * yoe + yoe / 4 - yoe / 100) in
  let mp := (5 * doy + 2) / 153 in
  let d := doy - (153 * mp + 2) / 5 + 1 in
  let m := if mp <? 10 then mp + 3 else mp - 9 in
  let y := yoe + era * 400 + (if m <=? 2 then 1 else 0) in
  (y, m, d).

(** A timestamp in seconds since the epoch as [YYYY-MM-DD HH:MM:SS]. *)
Definition format_seconds (t : Z) : string :=
  let '(y, m, d) := civil_from_days (t / 86400) in
  let s := t mod 86400 in
  (pad4 y ++ "-" ++ pad2 m ++ "-" ++ pad2 d ++ " "
     ++ pad2 (s / 3600) ++ ":" ++ pad2 (s / 60 mod 60) ++ ":"
     ++ pad2 (s mod 60))%string.

End Reference.

(** ** The specification's wording, for comparison with the code *)

(** The canonical form as the specification words it: uppercase, with every
    separator a colon. *)
Fixpoint spec_canonical_mac (v : string) : string :=
  match v with
  | EmptyString => EmptyString
  | String c r =>
      String (if Ascii.eqb c "-" then ":"%char else upper_char c)
        (spec_canonical_mac r)
  end.

(** [n] groups of two hex digits each followed by the separator [sep], and
    a last group of two hex digits. *)
Fixpoint spec_groups (sep : ascii) (n : nat) (s : string) : bool :=
  match n with
  | O =>
      match s with
      | String a (String b EmptyString) => (is_hex a && is_hex b)%bool
      | _ => false
      end
  | S n' =>
      match s with
      | String a (String b (String c r)) =>
          (is_hex a && is_hex b && Ascii.eqb c sep && spec_groups sep n' r)%bool
      | _ => false
      end
  end.

(** Six groups of two hex digits separated uniformly by [:] or by [-]. *)
Definition spec_mac_format (v : string) : bool :=
  (spec_groups ":" 5 v || spec_groups "-" 5 v)%bool.

(** Two hex digits and the separator that follows them. *)
Definition group (g : ascii * ascii * ascii) : string :=
  let '(a, b, c) := g in String a (String b (String c EmptyString)).

Definition group_ok (g : ascii * ascii * ascii) : Prop :=
  let '(a, b, c) := g in
  is_hex a = true /\ is_hex b = true /\ is_sep c = true.

(** Six groups of two hex digits, each of the five separators a [:] or a
    [-], not necessarily the same one. *)
Definition mac_shape (v : string) : Prop :=
  exists (gs : list (ascii * ascii * ascii)) (a b : ascii),
    List.length gs = 5%nat /\ Forall group_ok gs
    /\ is_hex a = true /\ is_hex b = true
    /\ v = (String.concat "" (map group gs) ++ String a (String b ""))%string.

Fixpoint ends_with_newline (s : string) : bool :=
  match s with
  | EmptyString => false
  | String c EmptyString => Ascii.eqb c newline
  | String _ r => ends_with_newline r
  end.

(** Newest first, and by descending id among equal [created_at]. *)
Definition spec_order (a b : BoxDB) : Prop :=
  DB.created_at a > DB.created_at b
  \/ (DB.created_at a = DB.created_at b /\ DB.id a > DB.id b).

(** The filter of a list or export query, as one predicate on a row: the
    search string occurs in one of six columns, and the process is the one
    asked for; a filter that is absent or empty lets every row through. *)
Definition selects {backend : Backend} (search process : option string)
  (b : BoxDB) : bool :=
  (match search with
   | Some s =>
       negb (truthy s)
       || (contains (DB.mac_address b) s
           || contains_opt (DB.ip_address b) s
           || contains_opt (DB.main_equipment b) s
           || contains_opt (DB.location b) s
           || contains (DB.process b) s
           || contains_opt (DB.manager b) s)
   | None => true
   end
   &&
   match process with
   | Some p => negb (truthy p) || String.eqb (DB.process b) p
   | None => true
   end)%bool.

(** The statement of the export, and the statement of a list page. *)
Definition export_select (search process : option string) : Select :=
  mkSelect (applied search) (applied process) None.

Definition page_select (search process : option string) (page page_size : Z)
  : Select :=
  mkSelect (applied search) (applied process)
    (Some ((page - 1) * page_size, page_size)).

(** The records that pass the filter, in the order the store returns
    them for statement [q], before pagination. *)
Definition matching {backend : Backend} (q : Select) (st : Store)
  (search process : option string) : list BoxDB :=
  order_by_created_at_desc q (filter (selects search process) (rows st)).

(** A nullable column as text: [NULL] is the empty text. *)
Definition nullable_text (x : option string) : string :=
  match x with
  | Some s => s
  | None => ""
  end.

(** The field values of a record in the order of the columns of the
    sheet, timestamps printed by [print]. *)
Definition record_cells (print : Z -> string) (b : BoxDB) : list Cell :=
  [CInt (DB.id b);
   CStr (DB.mac_address b);
   CStr (nullable_text (DB.ip_address b));
   CStr (nullable_text (DB.main_equipment b));
   CStr (nullable_text (DB.location b));
   CStr (DB.process b);
   CStr (nullable_text (DB.manager b));
   CStr (nullable_text (DB.note b));
   CStr (print (DB.created_at b));
   CStr (print (DB.updated_at b))].

(** The items of a page, or nothing when the request is refused. *)
Definition page_items (r : result ApiError PaginatedResponse) : list BoxDB :=
  match r with
  | Ok resp => items resp
  | Err _ => []
  end.

(** Every page of the list query in turn, first to last. *)
Definition list_all {backend : Backend} (st : Store) (page_size : Z)
  (search process : option string) : list BoxDB :=
  match get_boxes st (Some 1) (Some page_size) search process with
  | Ok first =>
      flat_map
        (fun k => page_items (get_boxes st (Some (Z.of_nat k)) (Some page_size)
                                search process))
        (seq 1 (Z.to_nat (total_pages first)))
  | Err _ => []
  end.

(** Invariant of the table: the primary key and the unique index. *)
Definition well_formed (st : Store) : Prop :=
  NoDup (map DB.id (rows st))
  /\ NoDup (map DB.mac_address (rows st))
  /\ Forall (fun r => DB.id r < next_id st) (rows st).

(** A field that is absent keeps the stored value and a field that is
    present is applied: on a [NOT NULL] column and on a nullable one. *)
Definition applied_required (f : Field string) (old new : string) : Prop :=
  match f with
  | Unset => new = old
  | Provided v => v = Some new
  end.

Definition applied_nullable (f : Field string) (old new : option string)
  : Prop :=
  match f with
  | Unset => new = old
  | Provided v => new = v
  end.

(** What validation does to a provided value of [mac_address] or [process]:
    a string is uppercased, [null] stays [null]. *)
Definition uppercased (f : Field string) : Field string :=
  match f with
  | Unset => Unset
  | Provided v => Provided (option_map upper v)
  end.

(** The store that a request leaves behind. *)
Definition store_after (st : Store) (r : result ApiError (Store * BoxDB))
  : Store :=
  match r with
  | Ok (st', _) => st'
  | Err _ => st
  end.

(** The stored process differs from its uppercase form. *)
Definition needs_upper (b : BoxDB) : bool :=
  negb (String.eqb (DB.process b) (upper (DB.process b))).

(** What a maintenance run that reports [n] changes makes of a row: a row
    whose process is uppercase already is left as it is, [updated_at]
    included; any other row has its process uppercased and [updated_at] set
    to one of the [n] readings of the clock. *)
Definition rewritten (utcnow : Z -> Z) (lo n : Z) (old new : BoxDB) : Prop :=
  if needs_upper old
  then exists k, lo <= k < n
                 /\ new = set_process old (upper (DB.process old)) (utcnow k)
  else new = old.

(** ** Sample data *)

Definition empty_store : Store := mkStore [] 1.

Definition sample_body (mac process : string) : Body.CreateRequest :=
  Body.mkCreateRequest (Some mac) None None None (Some process) None None.

(** One box, registered with the colon form of its address. *)
Definition store_one : Store :=
  store_after empty_store
    (post_boxes empty_store (sample_body "AA:BB:CC:DD:EE:FF" "etch") 100 100).

Definition box_one : BoxDB :=
  DB.mkBoxDB 1 "AA:BB:CC:DD:EE:FF" None None None "ETCH" None None 100 100.

Definition sample_update : Update.BoxUpdate :=
  Update.mkBoxUpdate Unset (Provided None) Unset Unset
    (Provided (Some "litho")) Unset (Provided (Some "")).

Definition validated_sample_update : Update.BoxUpdate :=
  Update.mkBoxUpdate Unset (Provided None) Unset Unset
    (Provided (Some "LITHO")) Unset (Provided (Some "")).

Definition tied (box_id : Z) (mac : string) : BoxDB :=
  DB.mkBoxDB box_id mac None None None "ETCH" None None 100 100.

(** Two boxes registered at the same instant. *)
Definition store_tied : Store :=
  mkStore [tied 1 "AA:BB:CC:DD:EE:01"; tied 2 "AA:BB:CC:DD:EE:02"] 3.

Definition numbered (box_id : Z) (created : Z) : BoxDB :=
  DB.mkBoxDB box_id (String "0" (String (Reference.digit box_id) ":BB:CC:DD:EE:FF"))
    None None None "ETCH" None None created created.

(** Five boxes, registered one after the other. *)
Definition store_five : Store :=
  mkStore [numbered 1 10; numbered 2 20; numbered 3 30; numbered 4 40;
           numbered 5 50] 6.

Definition legacy (box_id : Z) (process : string) : BoxDB :=
  DB.mkBoxDB box_id (DB.mac_address (numbered box_id 0)) None None None process
    None None 10 10.

(** Rows written before processes were uppercased on the way in. *)
Definition store_legacy : Store :=
  mkStore [legacy 1 "etch"; legacy 2 "ETCH"; legacy 3 "Litho"] 4.

Definition no_update : Update.BoxUpdate :=
  Update.mkBoxUpdate Unset Unset Unset Unset Unset Unset Unset.

Example format_epoch : Reference.format_seconds 0 = "1970-01-01 00:00:00".
Proof. reflexivity. Qed.

Example format_2023 :
  Reference.format_seconds 1700000000 = "2023-11-14 22:13:20".
Proof. reflexivity. Qed.

Example mac_colon :
  BoxBase.validate_mac "AA:BB:CC:DD:EE:FF" = Ok "AA:BB:CC:DD:EE:FF".
Proof. reflexivity. Qed.

Example mac_dash :
  BoxBase.validate_mac "aa-bb-cc-dd-ee-ff" = Ok "AA-BB-CC-DD-EE-FF".
Proof. reflexivity. Qed.

Example mac_short : BoxBase.validate_mac "aa-bb-cc-dd-ee" = Err InvalidFormat.
Proof. reflexivity. Qed.

Example ip_ok : BoxBase.validate_ip (Some "192.168.1.100") = Ok (Some "192.168.1.100").
Proof. reflexivity. Qed.

Example ip_wide : BoxBase.validate_ip (Some "999.9.99.1000") = Err InvalidFormat.
Proof. reflexivity. Qed.

(** ** Characters and [upper] *)

Ltac each_char c := destruct c as [[] [] [] [] [] [] [] []]; vm_compute.

Lemma upper_char_idempotent (c : ascii) : upper_char (upper_char c) = upper_char c.
Proof. each_char c; reflexivity. Qed.

Lemma is_hex_upper_char (c : ascii) : is_hex (upper_char c) = is_hex c.
Proof. each_char c; reflexivity. Qed.

Lemma newline_upper_char (c : ascii) :
  Ascii.eqb (upper_char c) newline = Ascii.eqb c newline.
Proof. each_char c; reflexivity. Qed.

Lemma upper_char_not_lower (c : ascii) : is_lower (upper_char c) = false.
Proof. each_char c; reflexivity. Qed.

Lemma is_sep_upper_char_eq (c : ascii) : is_sep (upper_char c) = is_sep c.
Proof. each_char c; reflexivity. Qed.

Lemma upper_char_colon (c : ascii) : upper_char c = ":"%char <-> c = ":"%char.
Proof. each_char c; split; intro H; first [reflexivity | discriminate H]. Qed.

Lemma upper_char_dash (c : ascii) : upper_char c = "-"%char <-> c = "-"%char.
Proof. each_char c; split; intro H; first [reflexivity | discriminate H]. Qed.

Lemma upper_idempotent (s : string) : upper (upper s) = upper s.
Proof.
  induction s as [| c r IH]; simpl.
  - reflexivity.
  - now rewrite upper_char_idempotent, IH.
Qed.

Lemma truthy_upper (s : string) : truthy (upper s) = truthy s.
Proof. destruct s; reflexivity. Qed.

Lemma at_end_upper (s : string) : at_end (upper s) = at_end s.
Proof.
  destruct s as [| c [| d r]]; simpl; try reflexivity.
  apply newline_upper_char.
Qed.

Lemma get_upper (i : nat) (s : string) :
  String.get i (upper s) = option_map upper_char (String.get i s).
Proof.
  revert i; induction s as [| c r IH]; intros [| i]; simpl; try reflexivity.
  apply IH.
Qed.

(** ** The MAC pattern *)

Lemma match_octet_sep_upper (n : nat) (s : string) :
  match_octet_sep n (upper s) = option_map upper (match_octet_sep n s).
Proof.
  revert s; induction n as [| n IH]; intros s; simpl.
  - reflexivity.
  - destruct s as [| a [| b [| c t]]]; try reflexivity.
    simpl. rewrite !is_hex_upper_char, is_sep_upper_char_eq.
    destruct (is_hex a && is_hex b && is_sep c)%bool; [apply IH | reflexivity].
Qed.

Lemma re_match_mac_upper (v : string) : re_match_mac (upper v) = re_match_mac v.
Proof.
  unfold re_match_mac. rewrite match_octet_sep_upper.
  destruct (match_octet_sep 5 v) as [r |]; [| reflexivity].
  destruct r as [| a [| b t]]; try reflexivity.
  cbn [option_map upper]. now rewrite !is_hex_upper_char, at_end_upper.
Qed.

Lemma concat_groups_cons (g : ascii * ascii * ascii) (gs : list (ascii * ascii * ascii)) (r : string) :
  (String.concat "" (map group (g :: gs)) ++ r)%string
  = (group g ++ (String.concat "" (map group gs) ++ r))%string.
Proof.
  destruct g as [[a b] c]. destruct gs as [| g' gs']; reflexivity.
Qed.

(** What [match_octet_sep] consumes: exactly [n] well-formed groups. *)
Lemma match_octet_sep_spec (n : nat) (s r : string) :
  match_octet_sep n s = Some r <->
  exists gs, List.length gs = n /\ Forall group_ok gs
             /\ s = (String.concat "" (map group gs) ++ r)%string.
Proof.
  revert s; induction n as [| n IH]; intros s; simpl.
  - split.
    + intros [= ->]. exists []. repeat split; constructor.
    + intros (gs & Hl & _ & ->). destruct gs; [reflexivity | discriminate].
  - split.
    + destruct s as [| a [| b [| c t]]]; try discriminate.
      destruct (is_hex a) eqn:Ha; [| discriminate].
      destruct (is_hex b) eqn:Hb; [| discriminate].
      destruct (is_sep c) eqn:Hc; [| discriminate]. simpl.
      intro H. apply IH in H. destruct H as (gs & Hl & Hok & ->).
      exists ((a, b, c) :: gs). split; [simpl; congruence |].
      split; [constructor; [now repeat split | exact Hok] |].
      now rewrite concat_groups_cons.
    + intros (gs & Hl & Hok & ->).
      destruct gs as [| [[a b] c] gs]; [discriminate |].
      rewrite concat_groups_cons. simpl.
      inversion Hok as [| ? ? Hg Hok']; subst.
      destruct Hg as (Ha & Hb & Hc).
      rewrite Ha, Hb, Hc. simpl. apply IH.
      exists gs. repeat split; [simpl in Hl; congruence | exact Hok'].
Qed.

Lemma at_end_cases (r : string) :
  at_end r = true <-> r = "" \/ r = String newline "".
Proof.
  destruct r as [| c [| d t]]; simpl.
  - split; [now left | reflexivity].
  - rewrite Ascii.eqb_eq. split.
    + intros ->. now right.
    + intros [H | H]; [discriminate H | now injection H].
  - split; [discriminate | intros [H | H]; discriminate H].
Qed.

Lemma append_assoc (a b c : string) :
  ((a ++ b) ++ c = a ++ (b ++ c))%string.
Proof. induction a as [| x a IH]; simpl; [reflexivity | now rewrite IH]. Qed.

Lemma ends_with_newline_append (w : string) :
  ends_with_newline (w ++ String newline "")%string = true.
Proof.
  induction w as [| c w IH]; [reflexivity |].
  simpl. destruct (w ++ String newline "")%string eqn:E; [| exact IH].
  destruct w; discriminate E.
Qed.

(** The pattern accepts the six-group shape, and that shape followed by one
    line feed, and nothing else. *)
Lemma re_match_mac_spec (v : string) :
  re_match_mac v = true <->
  mac_shape v \/ exists w, mac_shape w /\ v = (w ++ String newline "")%string.
Proof.
  unfold re_match_mac, mac_shape. split.
  - destruct (match_octet_sep 5 v) as [r |] eqn:E; [| discriminate].
    destruct r as [| a [| b t]]; try discriminate.
    destruct (is_hex a) eqn:Ha; [| discriminate].
    destruct (is_hex b) eqn:Hb; [| discriminate]. simpl.
    intro Hend. apply match_octet_sep_spec in E.
    destruct E as (gs & Hl & Hok & ->).
    apply at_end_cases in Hend. destruct Hend as [-> | ->].
    + left. exists gs, a, b. now repeat split.
    + right. eexists. split.
      * exists gs, a, b. repeat split; eassumption.
      * now rewrite append_assoc.
  - intros [(gs & a & b & Hl & Hok & Ha & Hb & ->)
           | (w & (gs & a & b & Hl & Hok & Ha & Hb & ->) & ->)].
    + assert (E : match_octet_sep 5 (String.concat "" (map group gs) ++ String a (String b ""))
                  = Some (String a (String b "")))
        by (apply match_octet_sep_spec; exists gs; now repeat split).
      rewrite E, Ha, Hb. reflexivity.
    + rewrite append_assoc.
      assert (E : match_octet_sep 5
                    (String.concat "" (map group gs)
                       ++ (String a (String b "") ++ String newline ""))
                  = Some (String a (String b "") ++ String newline "")%string)
        by (apply match_octet_sep_spec; exists gs; now repeat split).
      rewrite E. simpl. rewrite Ha, Hb. reflexivity.
Qed.

Lemma validate_mac_ok (v s : string) :
  BoxBase.validate_mac v = Ok s <->
  truthy v = true /\ re_match_mac v = true /\ s = upper v.
Proof.
  unfold BoxBase.validate_mac.
  destruct (truthy v), (re_match_mac v); simpl; split;
    try discriminate; try (intros (? & ? & ?); discriminate).
  - intros [= <-]. now repeat split.
  - intros (_ & _ & ->). reflexivity.
Qed.

Lemma re_match_mac_truthy (v : string) : re_match_mac v = true -> truthy v = true.
Proof. destruct v; [discriminate | reflexivity]. Qed.

(** C1 (as the code has it): an accepted MAC address is normalized to its
    uppercase form and every separator stays the one that was submitted, a
    colon a colon and a dash a dash; strings that differ only in letter case
    normalize to the same string, which is its own normal form. *)
Theorem validate_mac_uppercases (v s : string) :
  BoxBase.validate_mac v = Ok s ->
  s = upper v
  /\ (forall i, String.get i s = Some ":"%char <-> String.get i v = Some ":"%char)
  /\ (forall i, String.get i s = Some "-"%char <-> String.get i v = Some "-"%char)
  /\ (forall i c, String.get i s = Some c -> is_lower c = false)
  /\ (forall w, upper w = upper v -> BoxBase.validate_mac w = Ok s)
  /\ BoxBase.validate_mac s = Ok s.
Proof.
  intro H. apply validate_mac_ok in H. destruct H as (Ht & Hm & ->).
  assert (Hcase : forall w, upper w = upper v ->
                            BoxBase.validate_mac w = Ok (upper v)).
  { intros w Hw. apply validate_mac_ok.
    rewrite <- (truthy_upper w), <- (re_match_mac_upper w), Hw.
    now rewrite truthy_upper, re_match_mac_upper. }
  split; [reflexivity |]. split; [| split; [| split; [| split]]].
  - intro i. rewrite get_upper. destruct (String.get i v) as [c |]; simpl.
    + split; intro H; injection H as H; f_equal; now apply upper_char_colon.
    + split; discriminate.
  - intro i. rewrite get_upper. destruct (String.get i v) as [c |]; simpl.
    + split; intro H; injection H as H; f_equal; now apply upper_char_dash.
    + split; discriminate.
  - intros i c. rewrite get_upper.
    destruct (String.get i v) as [d |]; simpl; [| discriminate].
    intros [= <-]. apply upper_char_not_lower.
  - exact Hcase.
  - apply Hcase, upper_idempotent.
Qed.

Lemma validate_mac_uppercases_witness :
  "AA-BB-CC-DD-EE-FF" = upper "aa-bb-cc-dd-ee-ff"
  /\ (forall i, String.get i "AA-BB-CC-DD-EE-FF" = Some ":"%char
                <-> String.get i "aa-bb-cc-dd-ee-ff" = Some ":"%char)
  /\ (forall i, String.get i "AA-BB-CC-DD-EE-FF" = Some "-"%char
                <-> String.get i "aa-bb-cc-dd-ee-ff" = Some "-"%char)
  /\ (forall i c, String.get i "AA-BB-CC-DD-EE-FF" = Some c
                  -> is_lower c = false)
  /\ (forall w, upper w = upper "aa-bb-cc-dd-ee-ff"
                -> BoxBase.validate_mac w = Ok "AA-BB-CC-DD-EE-FF")
  /\ BoxBase.validate_mac "AA-BB-CC-DD-EE-FF" = Ok "AA-BB-CC-DD-EE-FF".
Proof.
  apply (validate_mac_uppercases "aa-bb-cc-dd-ee-ff" "AA-BB-CC-DD-EE-FF").
  reflexivity.
Defined.

(** C1 (as worded) fails: the dash form is accepted and keeps its dashes, so
    it is neither the colon-separated canonical form nor the value that the
    colon form normalizes to. *)
Lemma dash_form_keeps_dashes :
  BoxBase.validate_mac "aa-bb-cc-dd-ee-ff" = Ok "AA-BB-CC-DD-EE-FF"
  /\ spec_canonical_mac "aa-bb-cc-dd-ee-ff" = "AA:BB:CC:DD:EE:FF"
  /\ BoxBase.validate_mac "AA:BB:CC:DD:EE:FF" = Ok "AA:BB:CC:DD:EE:FF"
  /\ BoxBase.validate_mac "aa-bb-cc-dd-ee-ff"
     <> BoxBase.validate_mac "AA:BB:CC:DD:EE:FF".
Proof. repeat split. discriminate. Qed.

(** C8 (as the code has it): among strings that do not end in a line feed,
    validation accepts exactly those made of six groups of two hex digits
    with a colon or a dash after each of the first five, the separators not
    necessarily the same; the empty string fails with MissingRequired and
    every other string with InvalidFormat. *)
Theorem validate_mac_accepts (v : string) :
  ends_with_newline v = false ->
  ((exists s, BoxBase.validate_mac v = Ok s) <-> mac_shape v)
  /\ (BoxBase.validate_mac v = Err MissingRequired <-> v = "")
  /\ (BoxBase.validate_mac v = Err InvalidFormat <-> v <> "" /\ ~ mac_shape v).
Proof.
  intro Hnl.
  assert (Hiff : re_match_mac v = true <-> mac_shape v).
  { rewrite re_match_mac_spec. split; [| now left].
    intros [H | (w & _ & ->)]; [exact H |].
    rewrite ends_with_newline_append in Hnl. discriminate Hnl. }
  split; [| split].
  - split.
    + intros (s & H). apply validate_mac_ok in H. now apply Hiff.
    + intro H. exists (upper v). apply validate_mac_ok.
      apply Hiff in H. split; [now apply re_match_mac_truthy | now split].
  - unfold BoxBase.validate_mac. destruct v as [| c r]; simpl.
    + split; reflexivity.
    + destruct (re_match_mac (String c r)); simpl; split; discriminate.
  - unfold BoxBase.validate_mac. destruct v as [| c r]; simpl.
    + split; [discriminate | intros [H _]; now contradiction H].
    + destruct (re_match_mac (String c r)) eqn:E; simpl.
      * split; [discriminate |]. intros [_ H]. contradiction H. now apply Hiff.
      * split; [| reflexivity]. intros _. split; [discriminate |].
        intro H. apply Hiff in H. discriminate H.
Qed.

Lemma validate_mac_accepts_witness :
  ((exists s, BoxBase.validate_mac "AA:BB-CC:DD-EE:FF" = Ok s)
   <-> mac_shape "AA:BB-CC:DD-EE:FF")
  /\ (BoxBase.validate_mac "AA:BB-CC:DD-EE:FF" = Err MissingRequired
      <-> "AA:BB-CC:DD-EE:FF" = "")
  /\ (BoxBase.validate_mac "AA:BB-CC:DD-EE:FF" = Err InvalidFormat
      <-> "AA:BB-CC:DD-EE:FF" <> "" /\ ~ mac_shape "AA:BB-CC:DD-EE:FF").
Proof. apply (validate_mac_accepts "AA:BB-CC:DD-EE:FF"). reflexivity. Defined.

(** C8 (as worded) fails: a string whose separators alternate between colon
    and dash is accepted although its separators are not uniform, and the
    empty string is refused with MissingRequired, not InvalidFormat. *)
Lemma mixed_separators_accepted :
  BoxBase.validate_mac "AA:BB-CC:DD-EE:FF" = Ok "AA:BB-CC:DD-EE:FF"
  /\ spec_mac_format "AA:BB-CC:DD-EE:FF" = false
  /\ spec_mac_format "" = false
  /\ BoxBase.validate_mac "" <> Err InvalidFormat.
Proof. repeat split. discriminate. Qed.

Example trailing_line_feed_accepted :
  BoxBase.validate_mac (String.append "AA:BB:CC:DD:EE:FF" (String newline ""))
  = Ok (String.append "AA:BB:CC:DD:EE:FF" (String newline "")).
Proof. reflexivity. Qed.

(** ** Record store: create *)

(** What an accepted body looks like. *)
Lemma parse_BoxCreate_ok (body : Body.CreateRequest) (box : Create.BoxCreate) :
  parse_BoxCreate body = Ok box ->
  exists m p,
    Body.mac_address body = Some m
    /\ BoxBase.validate_mac m = Ok (Create.mac_address box)
    /\ Body.process body = Some p
    /\ Create.process box = BoxBase.validate_process p
    /\ BoxBase.validate_ip (Body.ip_address body) = Ok (Create.ip_address box).
Proof.
  unfold parse_BoxCreate.
  destruct (Body.mac_address body) as [m |]; [| discriminate].
  destruct (BoxBase.validate_mac m) as [m' |] eqn:Hm; [| discriminate].
  destruct (BoxBase.validate_ip (Body.ip_address body)) as [i |]; [| discriminate].
  destruct (Body.process body) as [p |]; [| discriminate].
  intros [= <-]. exists m, p. now repeat split.
Qed.

Lemma validate_process_upper (p : string) : BoxBase.validate_process p = upper p.
Proof. destruct p; reflexivity. Qed.

Lemma first_by_mac_none (rs : list BoxDB) (m : string) :
  first_by_mac rs m = None <-> forall r, In r rs -> DB.mac_address r <> m.
Proof.
  unfold first_by_mac. split.
  - intros H r Hr Heq. apply (find_none _ _ H) in Hr.
    rewrite Heq, String.eqb_refl in Hr. discriminate Hr.
  - intro H. destruct (find _ rs) as [r |] eqn:E; [| reflexivity].
    apply find_some in E. destruct E as [Hr Heq].
    apply String.eqb_eq in Heq. now apply H in Hr.
Qed.

Lemma violates_unique_false (rs : list BoxDB) (b : BoxDB) :
  (forall r, In r rs -> DB.mac_address r = DB.mac_address b -> DB.id r = DB.id b) ->
  violates_unique rs b = false.
Proof.
  intro H. unfold violates_unique.
  destruct (existsb _ rs) eqn:E; [| reflexivity].
  apply existsb_exists in E. destruct E as (r & Hr & Hc).
  apply andb_true_iff in Hc. destruct Hc as [Hid Hmac].
  apply String.eqb_eq in Hmac. apply (H r Hr) in Hmac.
  rewrite Hmac, Z.eqb_refl in Hid. discriminate Hid.
Qed.

(** A validated body whose address is not stored yet is inserted. *)
Lemma create_box_inserts (st : Store) (box : Create.BoxCreate) (now_c now_u : Z) :
  first_by_mac (rows st) (Create.mac_address box) = None ->
  exists b,
    create_box st box now_c now_u
    = Ok (mkStore (rows st ++ [b]) (next_id st + 1), b)
    /\ DB.id b = next_id st
    /\ DB.mac_address b = Create.mac_address box
    /\ DB.process b = Create.process box
    /\ DB.created_at b = now_c /\ DB.updated_at b = now_u.
Proof.
  intro H. unfold create_box. rewrite H.
  rewrite violates_unique_false.
  - eexists. split; [reflexivity |]. now repeat split.
  - intros r Hr Heq. simpl in Heq.
    now apply (proj1 (first_by_mac_none _ _) H r Hr) in Heq.
Qed.

(** C2 (as the code has it): a create request that passes validation and
    whose address, uppercased, is the stored address of some box fails with
    DuplicateKey, whatever the letter case of the request; the store is not
    touched. *)
Theorem create_duplicate_mac (st : Store) (b : BoxDB) (body : Body.CreateRequest)
  (m : string) (box : Create.BoxCreate) (now_c now_u : Z) :
  In b (rows st) ->
  Body.mac_address body = Some m ->
  upper m = DB.mac_address b ->
  parse_BoxCreate body = Ok box ->
  post_boxes st body now_c now_u = Err DuplicateKey
  /\ store_after st (post_boxes st body now_c now_u) = st.
Proof.
  intros Hb Hm Hup Hparse.
  assert (H : post_boxes st body now_c now_u = Err DuplicateKey).
  { unfold post_boxes. rewrite Hparse. unfold create_box.
    apply parse_BoxCreate_ok in Hparse.
    destruct Hparse as (m' & p & Hm' & Hv & _).
    rewrite Hm in Hm'. injection Hm' as <-.
    apply validate_mac_ok in Hv. destruct Hv as (_ & _ & Hbox).
    destruct (first_by_mac (rows st) (Create.mac_address box)) eqn:E;
      [reflexivity |].
    exfalso. apply (proj1 (first_by_mac_none _ _) E b Hb). congruence. }
  split; [exact H | now rewrite H].
Qed.

Lemma create_duplicate_mac_witness :
  post_boxes store_one (sample_body "aa:bb:cc:dd:ee:ff" "litho") 200 200
  = Err DuplicateKey
  /\ store_after store_one
       (post_boxes store_one (sample_body "aa:bb:cc:dd:ee:ff" "litho") 200 200)
     = store_one.
Proof.
  apply (create_duplicate_mac store_one box_one
           (sample_body "aa:bb:cc:dd:ee:ff" "litho") "aa:bb:cc:dd:ee:ff"
           (Create.mkBoxCreate "AA:BB:CC:DD:EE:FF" None None None "LITHO"
              None None)).
  - left. reflexivity.
  - reflexivity.
  - reflexivity.
  - reflexivity.
Defined.

(** C2 (as worded) fails: with the colon form stored, a request that gives
    the same address in lower case with dashes has the stored address as its
    canonical form, yet it is accepted and a second record is inserted. *)
Lemma dash_request_not_duplicate :
  rows store_one = [box_one]
  /\ spec_canonical_mac "aa-bb-cc-dd-ee-ff" = DB.mac_address box_one
  /\ post_boxes store_one (sample_body "aa-bb-cc-dd-ee-ff" "etch") 200 200
     = Ok (mkStore
             [box_one;
              DB.mkBoxDB 2 "AA-BB-CC-DD-EE-FF" None None None "ETCH" None None
                200 200] 3,
           DB.mkBoxDB 2 "AA-BB-CC-DD-EE-FF" None None None "ETCH" None None
             200 200).
Proof. repeat split. Qed.

(** C5 (as the code has it): a create request without [process] fails with
    MissingRequired on that field; a [process] that is present is never a
    validation error, the empty string included; a validated request whose
    address is new is accepted; and every accepted request stores the
    uppercased form of the process it submitted. *)
Theorem create_process_uppercased (st : Store) (body : Body.CreateRequest)
  (now_c now_u : Z) :
  (Body.process body = None ->
   exists errs, post_boxes st body now_c now_u = Err (Unprocessable errs)
                /\ In (F_process, MissingRequired) errs)
  /\ (forall p errs e,
        Body.process body = Some p ->
        post_boxes st body now_c now_u = Err (Unprocessable errs) ->
        ~ In (F_process, e) errs)
  /\ (forall box,
        parse_BoxCreate body = Ok box ->
        first_by_mac (rows st) (Create.mac_address box) = None ->
        exists st' b, post_boxes st body now_c now_u = Ok (st', b))
  /\ (forall st' b,
        post_boxes st body now_c now_u = Ok (st', b) ->
        exists p, Body.process body = Some p
                  /\ DB.process b = upper p
                  /\ rows st' = rows st ++ [b]).
Proof.
  split; [| split; [| split]].
  - intro Hp. unfold post_boxes, parse_BoxCreate. rewrite Hp.
    destruct (match Body.mac_address body with
              | Some v => BoxBase.validate_mac v
              | None => Err MissingRequired
              end) as [m |];
      destruct (BoxBase.validate_ip (Body.ip_address body)) as [i |];
      (eexists; split; [reflexivity |]);
      apply in_or_app; right; apply in_or_app; right; left; reflexivity.
  - intros p errs e Hp. unfold post_boxes, parse_BoxCreate. rewrite Hp.
    destruct (match Body.mac_address body with
              | Some v => BoxBase.validate_mac v
              | None => Err MissingRequired
              end) as [m | em];
      destruct (BoxBase.validate_ip (Body.ip_address body)) as [i | ei];
      cbn [field_errors app].
    + unfold create_box.
      destruct (first_by_mac _ _); [discriminate |].
      destruct (violates_unique _ _); discriminate.
    + intros [= <-] [H | []]. discriminate H.
    + intros [= <-] [H | []]. discriminate H.
    + intros [= <-] [H | [H | []]]; discriminate H.
  - intros box Hparse Hnew. unfold post_boxes. rewrite Hparse.
    destruct (create_box_inserts st box now_c now_u Hnew) as (b & H & _).
    rewrite H. eauto.
  - intros st' b. unfold post_boxes.
    destruct (parse_BoxCreate body) as [box | errs] eqn:Hparse; [| discriminate].
    apply parse_BoxCreate_ok in Hparse.
    destruct Hparse as (m & p & _ & _ & Hp & Hproc & _).
    unfold create_box.
    destruct (first_by_mac _ _); [discriminate |].
    destruct (violates_unique _ _); [discriminate |].
    intros [= <- <-]. exists p. simpl.
    rewrite Hproc, validate_process_upper. now repeat split.
Qed.

(** C5 (as worded) fails: a create request whose process is the empty
    string is accepted, and the box is stored with the empty process. *)
Lemma empty_process_accepted :
  post_boxes empty_store (sample_body "AA:BB:CC:DD:EE:FF" "") 100 100
  = Ok (mkStore
          [DB.mkBoxDB 1 "AA:BB:CC:DD:EE:FF" None None None "" None None 100 100]
          2,
        DB.mkBoxDB 1 "AA:BB:CC:DD:EE:FF" None None None "" None None 100 100).
Proof. reflexivity. Qed.

Lemma create_process_uppercased_witness :
  exists p, Body.process (sample_body "AA:BB:CC:DD:EE:FF" "etch") = Some p
            /\ DB.process box_one = upper p
            /\ rows store_one = rows empty_store ++ [box_one].
Proof.
  destruct (create_process_uppercased empty_store
              (sample_body "AA:BB:CC:DD:EE:FF" "etch") 100 100)
    as (_ & _ & _ & H).
  apply (H store_one box_one). reflexivity.
Defined.

(** ** Record store: partial update *)

Lemma parse_update_ok (body u : Update.BoxUpdate) :
  Update.parse body = Ok u ->
  Update.mac_address u = uppercased (Update.mac_address body)
  /\ Update.process u = uppercased (Update.process body)
  /\ Update.ip_address u = Update.ip_address body
  /\ Update.main_equipment u = Update.main_equipment body
  /\ Update.location u = Update.location body
  /\ Update.manager u = Update.manager body
  /\ Update.note u = Update.note body
  /\ (forall m, Update.mac_address u = Provided (Some m) -> truthy m = true).
Proof.
  unfold Update.parse.
  assert (Hproc : match Update.process body with
                  | Unset => Unset
                  | Provided v => Provided (Update.validate_process v)
                  end = uppercased (Update.process body)).
  { destruct (Update.process body) as [| [[| c r] |]]; reflexivity. }
  rewrite Hproc.
  destruct (Update.mac_address body) as [| [m |]] eqn:Hmac; simpl.
  - intros [= <-]. simpl. repeat split. discriminate.
  - destruct (truthy m) eqn:Ht; simpl; [| discriminate].
    destruct (re_match_mac m); simpl; [| discriminate].
    intros [= <-]. simpl. repeat split.
    intros m' [= <-]. now rewrite truthy_upper.
  - intros [= <-]. simpl. repeat split. discriminate.
Qed.

Lemma NoDup_map_eq {A B : Type} (f : A -> B) (l : list A) (x y : A) :
  NoDup (map f l) -> In x l -> In y l -> f x = f y -> x = y.
Proof.
  induction l as [| a l IH]; simpl; [contradiction |].
  intros Hnd Hx Hy Heq. inversion Hnd as [| ? ? Hnotin Hnd']; subst.
  destruct Hx as [-> | Hx], Hy as [-> | Hy].
  - reflexivity.
  - exfalso. apply Hnotin. rewrite Heq. now apply in_map.
  - exfalso. apply Hnotin. rewrite <- Heq. now apply in_map.
  - now apply IH.
Qed.

Lemma first_by_id_some (rs : list BoxDB) (box_id : Z) (b : BoxDB) :
  first_by_id rs box_id = Some b -> In b rs /\ DB.id b = box_id.
Proof.
  unfold first_by_id. intro H. apply find_some in H.
  destruct H as [Hin Hid]. now apply Z.eqb_eq in Hid.
Qed.

Lemma replace_row_other (rs : list BoxDB) (b r : BoxDB) :
  In r rs -> DB.id r <> DB.id b -> In r (replace_row rs b).
Proof.
  intros Hr Hid. unfold replace_row. apply in_map_iff. exists r.
  split; [| exact Hr].
  destruct (DB.id r =? DB.id b) eqn:E; [| reflexivity].
  apply Z.eqb_eq in E. contradiction.
Qed.

Lemma replace_row_self (rs : list BoxDB) (old b : BoxDB) :
  In old rs -> DB.id old = DB.id b -> In b (replace_row rs b).
Proof.
  intros Hr Hid. unfold replace_row. apply in_map_iff. exists old.
  split; [| exact Hr]. now rewrite Hid, Z.eqb_refl.
Qed.

Lemma replace_row_length (rs : list BoxDB) (b : BoxDB) :
  List.length (replace_row rs b) = List.length rs.
Proof. apply length_map. Qed.

(** C7 (as the code has it): for an update request that passes validation,
    on a well-formed store.  Validation uppercases a provided [mac_address]
    or [process] and leaves the other fields as given.  An unknown id fails
    with NotFound.  A provided address that differs from the box's own and
    is the address of a stored record fails with DuplicateKey.  Otherwise,
    unless [mac_address] or [process] is set to [null], the update succeeds:
    every absent field keeps its stored value, every present field is
    applied (an empty string or a [null] on a nullable column included),
    [created_at] and the id are kept, [updated_at] is the current time, and
    the other rows stay in the store. *)
Theorem update_box_partial (st : Store) (box_id : Z)
  (body u : Update.BoxUpdate) (now : Z) :
  well_formed st ->
  Update.parse body = Ok u ->
  (Update.mac_address u = uppercased (Update.mac_address body)
   /\ Update.process u = uppercased (Update.process body)
   /\ Update.ip_address u = Update.ip_address body
   /\ Update.main_equipment u = Update.main_equipment body
   /\ Update.location u = Update.location body
   /\ Update.manager u = Update.manager body
   /\ Update.note u = Update.note body)
  /\ (first_by_id (rows st) box_id = None ->
      put_boxes st box_id body now = Err NotFound)
  /\ (forall old,
        first_by_id (rows st) box_id = Some old ->
        (forall m other,
           Update.mac_address u = Provided (Some m) ->
           m <> DB.mac_address old ->
           In other (rows st) -> DB.mac_address other = m ->
           put_boxes st box_id body now = Err DuplicateKey)
        /\ ((forall m other,
               Update.mac_address u = Provided (Some m) ->
               m <> DB.mac_address old ->
               In other (rows st) -> DB.mac_address other <> m) ->
            Update.mac_address u <> Provided None ->
            Update.process u <> Provided None ->
            exists new,
              put_boxes st box_id body now
              = Ok (mkStore (replace_row (rows st) new) (next_id st), new)
              /\ DB.id new = box_id
              /\ DB.created_at new = DB.created_at old
              /\ DB.updated_at new = now
              /\ applied_required (Update.mac_address u)
                   (DB.mac_address old) (DB.mac_address new)
              /\ applied_required (Update.process u)
                   (DB.process old) (DB.process new)
              /\ applied_nullable (Update.ip_address u)
                   (DB.ip_address old) (DB.ip_address new)
              /\ applied_nullable (Update.main_equipment u)
                   (DB.main_equipment old) (DB.main_equipment new)
              /\ applied_nullable (Update.location u)
                   (DB.location old) (DB.location new)
              /\ applied_nullable (Update.manager u)
                   (DB.manager old) (DB.manager new)
              /\ applied_nullable (Update.note u)
                   (DB.note old) (DB.note new)
              /\ In new (replace_row (rows st) new)
              /\ List.length (replace_row (rows st) new) = List.length (rows st)
              /\ (forall r, In r (rows st) -> DB.id r <> box_id ->
                            In r (replace_row (rows st) new)))).
Proof.
  intros (Hids & Hmacs & _) Hparse.
  pose proof (parse_update_ok _ _ Hparse) as
    (Hm & Hp & Hi & He & Hl & Hg & Hn & Htruthy).
  split; [now repeat split |].
  unfold put_boxes. rewrite Hparse. unfold update_box.
  split; [intros ->; reflexivity |].
  intros old Hold. rewrite Hold.
  apply first_by_id_some in Hold. destruct Hold as [Hin Hid].
  split.
  - intros m other Hmac Hneq Hother Heq. rewrite Hmac. cbn [attr].
    rewrite (Htruthy m Hmac).
    destruct (String.eqb m (DB.mac_address old)) eqn:E;
      [apply String.eqb_eq in E; contradiction |].
    destruct (first_by_mac (rows st) m) eqn:F; [reflexivity |].
    exfalso. exact (proj1 (first_by_mac_none _ _) F other Hother Heq).
  - intros Hfree Hmac_null Hproc_null.
    assert (Hcollides :
              match attr (Update.mac_address u) with
              | Some m =>
                  (truthy m && negb (String.eqb m (DB.mac_address old)))%bool
                  && match first_by_mac (rows st) m with
                     | Some _ => true
                     | None => false
                     end
              | None => false
              end = false).
    { destruct (Update.mac_address u) as [| [m |]] eqn:Hmac; cbn [attr];
        try reflexivity.
      destruct (String.eqb m (DB.mac_address old)) eqn:E.
      - now rewrite andb_false_r.
      - apply String.eqb_neq in E.
        assert (F : first_by_mac (rows st) m = None).
        { apply first_by_mac_none. intros r Hr.
          exact (Hfree m r eq_refl E Hr). }
        rewrite F. apply andb_false_r. }
    rewrite Hcollides.
    destruct (set_required (Update.mac_address u) (DB.mac_address old))
      as [m |] eqn:Em.
    2:{ destruct (Update.mac_address u) as [| [m |]]; try discriminate Em.
        now contradiction Hmac_null. }
    destruct (set_required (Update.process u) (DB.process old))
      as [p |] eqn:Ep.
    2:{ destruct (Update.process u) as [| [p |]]; try discriminate Ep.
        now contradiction Hproc_null. }
    rewrite violates_unique_false.
    + eexists. split; [reflexivity |]. cbn [DB.id DB.created_at DB.updated_at
        DB.mac_address DB.process DB.ip_address DB.main_equipment DB.location
        DB.manager DB.note].
      split; [exact Hid |]. split; [reflexivity |]. split; [reflexivity |].
      split; [destruct (Update.mac_address u) as [| v]; simpl in *; congruence |].
      split; [destruct (Update.process u) as [| v]; simpl in *; congruence |].
      split; [destruct (Update.ip_address u); reflexivity |].
      split; [destruct (Update.main_equipment u); reflexivity |].
      split; [destruct (Update.location u); reflexivity |].
      split; [destruct (Update.manager u); reflexivity |].
      split; [destruct (Update.note u); reflexivity |].
      split; [now apply (replace_row_self _ old) |].
      split; [apply replace_row_length |].
      intros r Hr Hne. apply replace_row_other; [exact Hr |].
      simpl. congruence.
    + cbn [DB.id DB.mac_address]. intros r Hr Heq.
      destruct (String.eqb m (DB.mac_address old)) eqn:E.
      * apply String.eqb_eq in E. f_equal.
        apply (NoDup_map_eq DB.mac_address (rows st)); congruence.
      * apply String.eqb_neq in E.
        destruct (Update.mac_address u) as [| [m' |]] eqn:Hmac;
          simpl in Em; try congruence.
        injection Em as ->. exfalso. exact (Hfree m r eq_refl E Hr Heq).
Qed.

Lemma store_one_well_formed : well_formed store_one.
Proof.
  repeat split; simpl.
  - constructor; [intros [] | constructor].
  - constructor; [intros [] | constructor].
  - constructor; [reflexivity | constructor].
Qed.

Lemma update_box_partial_witness :
  exists new,
    put_boxes store_one 1 sample_update 300
    = Ok (mkStore (replace_row (rows store_one) new) (next_id store_one), new)
    /\ DB.created_at new = DB.created_at box_one
    /\ DB.updated_at new = 300
    /\ DB.mac_address new = DB.mac_address box_one
    /\ DB.process new = "LITHO"
    /\ DB.ip_address new = None
    /\ DB.note new = Some "".
Proof.
  destruct (update_box_partial store_one 1 sample_update
              validated_sample_update 300 store_one_well_formed eq_refl)
    as (_ & _ & H).
  destruct (H box_one eq_refl) as (_ & Hok).
  destruct Hok as (new & H1 & _ & H3 & H4 & H5 & H6 & H7 & _ & _ & _ & H11 & _).
  - intros m other Hm. discriminate Hm.
  - discriminate.
  - discriminate.
  - exists new. simpl in H5, H6, H7, H11. injection H6 as H6.
    repeat split; [exact H1 | exact H3 | exact H4 | exact H5 | now symmetry
                  | exact H7 | exact H11].
Defined.

(** C7 (as worded) fails: an [mac_address] that is present as the empty
    string is refused by validation and nothing is applied; a [process] that
    is present as [null] passes validation and is then refused by the
    [NOT NULL] column, an outcome that is neither NotFound nor DuplicateKey. *)
Lemma present_field_not_applied :
  put_boxes store_one 1
    (Update.mkBoxUpdate (Provided (Some "")) Unset Unset Unset Unset Unset Unset)
    300
  = Err (Unprocessable [(F_mac_address, MissingRequired)])
  /\ put_boxes store_one 1
       (Update.mkBoxUpdate Unset Unset Unset Unset (Provided None) Unset Unset)
       300
     = Err IntegrityError.
Proof. split; reflexivity. Qed.

(** ** The reference backend *)

Lemma insert_desc_perm (b : BoxDB) (l : list BoxDB) :
  Permutation (Reference.insert_desc b l) (b :: l).
Proof.
  induction l as [| x r IH]; simpl.
  - apply Permutation_refl.
  - destruct (DB.created_at x <=? DB.created_at b).
    + apply Permutation_refl.
    + eapply perm_trans; [apply perm_skip, IH | apply perm_swap].
Qed.

Lemma insert_desc_sorted (b : BoxDB) (l : list BoxDB) :
  StronglySorted newest_first l ->
  StronglySorted newest_first (Reference.insert_desc b l).
Proof.
  induction 1 as [| x r Hs IH Hall]; simpl.
  - repeat constructor.
  - destruct (DB.created_at x <=? DB.created_at b) eqn:E.
    + apply Z.leb_le in E. constructor; [now constructor |].
      constructor; [unfold newest_first; lia |].
      eapply Forall_impl; [| exact Hall].
      unfold newest_first. intros y Hy. lia.
    + apply Z.leb_gt in E. constructor; [exact IH |].
      eapply Permutation_Forall; [apply Permutation_sym, insert_desc_perm |].
      constructor; [unfold newest_first; lia | exact Hall].
Qed.

Lemma sort_desc_perm (l : list BoxDB) : Permutation (Reference.sort_desc l) l.
Proof.
  induction l as [| b l IH]; simpl; [constructor |].
  eapply perm_trans; [apply insert_desc_perm | now apply perm_skip].
Qed.

Lemma sort_desc_sorted (l : list BoxDB) :
  StronglySorted newest_first (Reference.sort_desc l).
Proof.
  induction l as [| b l IH]; simpl; [constructor | now apply insert_desc_sorted].
Qed.

Definition reference_backend : Backend := {|
  contains := fun column s => Reference.substring_of s column;
  order_by_created_at_desc := fun _ => Reference.sort_desc;
  order_by_perm := fun _ => sort_desc_perm;
  order_by_sorted := fun _ => sort_desc_sorted;
  strftime := Reference.format_seconds
|}.

(** ** Lists: slices and pages *)

Lemma StronglySorted_app_inv {A : Type} (R : A -> A -> Prop) (l1 l2 : list A) :
  StronglySorted R (l1 ++ l2) -> StronglySorted R l1 /\ StronglySorted R l2.
Proof.
  induction l1 as [| a l1 IH]; simpl; intro H.
  - split; [constructor | exact H].
  - inversion H as [| ? ? Hs Hall]; subst.
    destruct (IH Hs) as [H1 H2]. split; [| exact H2].
    constructor; [exact H1 |].
    apply Forall_app in Hall. tauto.
Qed.

Lemma StronglySorted_slice {A : Type} (R : A -> A -> Prop) (n m : nat) (l : list A) :
  StronglySorted R l -> StronglySorted R (firstn n (skipn m l)).
Proof.
  intro H. rewrite <- (firstn_skipn m l) in H.
  apply StronglySorted_app_inv in H. destruct H as [_ H].
  rewrite <- (firstn_skipn n (skipn m l)) in H.
  now apply StronglySorted_app_inv in H.
Qed.

Lemma slice_decompose {A : Type} (n m : nat) (l : list A) :
  l = firstn m l ++ firstn n (skipn m l) ++ skipn n (skipn m l).
Proof. now rewrite (firstn_skipn n), (firstn_skipn m). Qed.

Lemma flat_map_shift {A : Type} (f : nat -> list A) (l : list nat) :
  flat_map f (map S l) = flat_map (fun k => f (S k)) l.
Proof. induction l as [| k l IH]; simpl; [reflexivity | now rewrite IH]. Qed.

Lemma flat_map_ext_on {A B : Type} (f g : A -> list B) (l : list A) :
  (forall x, In x l -> f x = g x) -> flat_map f l = flat_map g l.
Proof.
  induction l as [| a l IH]; simpl; intro H; [reflexivity |].
  rewrite (H a (or_introl eq_refl)), IH; [reflexivity |].
  intros x Hx. apply H. now right.
Qed.

(** Pages [1] to [n] of size [size], one after the other, are the list. *)
Lemma pages_concat {A : Type} (size n : nat) (l : list A) :
  (List.length l <= n * size)%nat ->
  flat_map (fun k => firstn size (skipn ((k - 1) * size) l)) (seq 1 n) = l.
Proof.
  revert l. induction n as [| n IH]; intros l Hlen.
  - simpl in *. destruct l; [reflexivity | simpl in Hlen; lia].
  - cbn [seq flat_map]. rewrite <- seq_shift, flat_map_shift.
    rewrite (flat_map_ext_on _
               (fun k => firstn size (skipn ((k - 1) * size) (skipn size l)))).
    + rewrite IH.
      * simpl. apply firstn_skipn.
      * rewrite length_skipn. simpl in Hlen. lia.
    + intros k Hk. apply in_seq in Hk. rewrite skipn_skipn.
      do 2 f_equal. destruct k as [| k]; [lia |]. simpl.
      rewrite Nat.sub_0_r. lia.
Qed.

(** ** List query and export *)

Section QueryTheory.

Context {backend : Backend}.

Lemma filter_filter {A : Type} (f g : A -> bool) (l : list A) :
  filter g (filter f l) = filter (fun x => f x && g x)%bool l.
Proof.
  induction l as [| a l IH]; simpl; [reflexivity |].
  destruct (f a); simpl; [destruct (g a) |]; now rewrite IH.
Qed.

Lemma filter_all {A : Type} (f : A -> bool) (l : list A) :
  (forall x, f x = true) -> filter f l = l.
Proof.
  intro H. induction l as [| a l IH]; simpl; [reflexivity |].
  now rewrite H, IH.
Qed.

(** The two conditional [filter] calls amount to one filter by [selects]. *)
Lemma query_selects (rs : list BoxDB) (search process : option string) :
  (let query := rs in
   let query :=
     match search with
     | Some search =>
         if truthy search then
           filter (fun b =>
                     contains (DB.mac_address b) search
                     || contains_opt (DB.ip_address b) search
                     || contains_opt (DB.main_equipment b) search
                     || contains_opt (DB.location b) search
                     || contains (DB.process b) search
                     || contains_opt (DB.manager b) search)%bool query
         else query
     | None => query
     end in
   match process with
   | Some process =>
       if truthy process
       then filter (fun b => String.eqb (DB.process b) process) query
       else query
   | None => query
   end) = filter (selects search process) rs.
Proof.
  cbv zeta. unfold selects.
  destruct search as [s |]; [destruct (truthy s) |];
    (destruct process as [p |]; [destruct (truthy p) |]); cbn [negb orb];
    rewrite ?filter_filter;
    first [ apply filter_ext; intro b; now rewrite ?andb_true_r
          | symmetry; now apply filter_all ].
Qed.

Lemma export_boxes_matching (st : Store) (search process : option string) :
  export_boxes st search process
  = matching (export_select search process) st search process.
Proof.
  unfold export_boxes, matching. cbv zeta. f_equal.
  apply (query_selects (rows st)).
Qed.

Lemma get_boxes_ok (st : Store) (page page_size : Z)
  (search process : option string) :
  1 <= page -> 1 <= page_size <= 1000 ->
  get_boxes st (Some page) (Some page_size) search process
  = Ok (mkPaginatedResponse
          (Z.of_nat (List.length (filter (selects search process) (rows st))))
          page page_size
          ((Z.of_nat (List.length (filter (selects search process) (rows st)))
            + page_size - 1) / page_size)
          (firstn (Z.to_nat page_size)
             (skipn (Z.to_nat ((page - 1) * page_size))
                (matching (page_select search process page page_size)
                   st search process)))).
Proof.
  intros Hp Hs. unfold get_boxes, matching.
  replace ((page <? 1) || (page_size <? 1) || (1000 <? page_size))%bool
    with false
    by (symmetry; rewrite !orb_false_iff, !Z.ltb_ge; lia).
  cbv zeta. now rewrite (query_selects (rows st)).
Qed.

Lemma matching_length (q : Select) (st : Store)
  (search process : option string) :
  List.length (matching q st search process)
  = List.length (filter (selects search process) (rows st)).
Proof. apply Permutation_length, order_by_perm. Qed.

Lemma StronglySorted_matching_key (q : Select) (st : Store)
  (search process : option string) :
  StronglySorted newest_first (matching q st search process).
Proof. apply order_by_sorted. Qed.

Lemma ceil_div_bounds (t n : Z) :
  0 <= t -> 0 < n ->
  ((t + n - 1) / n - 1) * n < t <= (t + n - 1) / n * n.
Proof.
  intros Ht Hn.
  pose proof (Z.mul_div_le (t + n - 1) n Hn) as Hlo.
  pose proof (Z.mul_succ_div_gt (t + n - 1) n Hn) as Hhi.
  nia.
Qed.

Lemma slice_length {A : Type} (page page_size : Z) (l : list A) :
  1 <= page -> 1 <= page_size ->
  Z.of_nat (List.length
              (firstn (Z.to_nat page_size)
                 (skipn (Z.to_nat ((page - 1) * page_size)) l)))
  = Z.max 0 (Z.min page_size
               (Z.of_nat (List.length l) - (page - 1) * page_size)).
Proof.
  intros Hp Hs. rewrite length_firstn, length_skipn.
  assert (0 <= (page - 1) * page_size) by nia. lia.
Qed.

(** C3: a query with [page >= 1] and [1 <= page_size <= 1000] is answered;
    [total] counts the records that pass the filter; the items are the
    records that follow the first [(page - 1) * page_size] matching ones, at
    most [page_size] of them and exactly that many while more remain;
    [total_pages] is the ceiling of [total / page_size], so [0] for no
    record.  With five boxes and no filter, pages of two give three pages,
    two items on the first and one on the third. *)
Theorem get_boxes_paginates (st : Store) (page page_size : Z)
  (search process : option string) :
  1 <= page -> 1 <= page_size <= 1000 ->
  exists r,
    get_boxes st (Some page) (Some page_size) search process = Ok r
    /\ total r
       = Z.of_nat (List.length (filter (selects search process) (rows st)))
    /\ (exists ordered skipped rest,
          Permutation ordered (filter (selects search process) (rows st))
          /\ StronglySorted newest_first ordered
          /\ ordered = skipped ++ items r ++ rest
          /\ Z.of_nat (List.length skipped)
             = Z.min ((page - 1) * page_size) (total r)
          /\ Z.of_nat (List.length (items r)) <= page_size
          /\ (rest <> [] -> Z.of_nat (List.length (items r)) = page_size))
    /\ Z.of_nat (List.length (items r))
       = Z.max 0 (Z.min page_size (total r - (page - 1) * page_size))
    /\ (total_pages r - 1) * page_size < total r <= total_pages r * page_size
    /\ (total r = 0 -> total_pages r = 0)
    /\ (List.length (rows st) = 5%nat -> search = None -> process = None ->
        page_size = 2 ->
        total_pages r = 3
        /\ (page = 1 -> List.length (items r) = 2%nat)
        /\ (page = 3 -> List.length (items r) = 1%nat)).
Proof.
  intros Hp Hs. eexists. split; [now apply get_boxes_ok |].
  cbn [total items total_pages].
  set (L := matching (page_select search process page page_size)
              st search process).
  assert (HL : List.length (filter (selects search process) (rows st))
               = List.length L) by (symmetry; apply matching_length).
  rewrite HL.
  assert (Hoff : 0 <= (page - 1) * page_size) by nia.
  pose proof (slice_length page page_size L Hp (proj1 Hs)) as Hlen.
  pose proof (ceil_div_bounds (Z.of_nat (List.length L)) page_size
                (Nat2Z.is_nonneg _) ltac:(lia)) as Hceil.
  split; [reflexivity |]. split; [| split; [exact Hlen |]].
  - exists L, (firstn (Z.to_nat ((page - 1) * page_size)) L),
      (skipn (Z.to_nat page_size)
         (skipn (Z.to_nat ((page - 1) * page_size)) L)).
    split; [apply order_by_perm |].
    split; [apply StronglySorted_matching_key |].
    split; [apply slice_decompose |]. split; [rewrite length_firstn; lia |].
    split; [lia |].
    intro Hrest. rewrite length_firstn.
    assert (List.length (skipn (Z.to_nat page_size)
                           (skipn (Z.to_nat ((page - 1) * page_size)) L))
            <> 0%nat) as Hne
      by (intro H0; apply length_zero_iff_nil in H0; contradiction).
    rewrite length_skipn in Hne. lia.
  - split; [exact Hceil |]. split.
    + intro H0. rewrite H0 in *. simpl.
      apply Z.div_small. lia.
    + intros H5 -> -> ->.
      assert (HL5 : List.length L = 5%nat).
      { rewrite <- HL, filter_all; [exact H5 | reflexivity]. }
      rewrite HL5 in *. split; [reflexivity |].
      split; intros ->; apply Nat2Z.inj; rewrite Hlen; reflexivity.
Qed.

Lemma StronglySorted_matching (q : Select) (st : Store)
  (search process : option string) :
  StronglySorted newest_first (matching q st search process).
Proof. apply order_by_sorted. Qed.

(** C4 (as the code has it): the items of every page come newest first,
    that is in descending order of [created_at]. *)
Theorem get_boxes_newest_first (st : Store) (page page_size : Z)
  (search process : option string) :
  1 <= page -> 1 <= page_size <= 1000 ->
  exists r,
    get_boxes st (Some page) (Some page_size) search process = Ok r
    /\ StronglySorted newest_first (items r).
Proof.
  intros Hp Hs. eexists. split; [now apply get_boxes_ok |].
  cbn [items]. apply StronglySorted_slice, StronglySorted_matching.
Qed.

End QueryTheory.

Lemma get_boxes_paginates_witness :
  exists r,
    @get_boxes reference_backend store_five (Some 3) (Some 2) None None = Ok r
    /\ total r = 5
    /\ total_pages r = 3
    /\ List.length (items r) = 1%nat.
Proof.
  destruct (get_boxes_paginates (backend := reference_backend) store_five 3 2
              None None)
    as (r & Hr & Htotal & _ & _ & _ & _ & Hfive); [lia | lia |].
  destruct (Hfive eq_refl eq_refl eq_refl eq_refl) as (Hpages & _ & Hthird).
  exists r. repeat split; [exact Hr | exact Htotal | exact Hpages |].
  now apply Hthird.
Defined.

Lemma get_boxes_newest_first_witness :
  exists r,
    @get_boxes reference_backend store_five (Some 2) (Some 2) None None = Ok r
    /\ StronglySorted newest_first (items r).
Proof.
  apply (get_boxes_newest_first (backend := reference_backend) store_five 2 2
           None None); lia.
Defined.

(** C4 (as worded) fails: the query asks the store for [created_at]
    descending and nothing more, so for two boxes registered at the same
    instant a store that returns equal keys in primary-key order answers
    with the lower id first. *)
Lemma tied_boxes_lower_id_first :
  @get_boxes reference_backend store_tied (Some 1) (Some 50) None None
  = Ok (mkPaginatedResponse 2 1 50 1
          [tied 1 "AA:BB:CC:DD:EE:01"; tied 2 "AA:BB:CC:DD:EE:02"])
  /\ ~ StronglySorted spec_order
         [tied 1 "AA:BB:CC:DD:EE:01"; tied 2 "AA:BB:CC:DD:EE:02"].
Proof.
  split; [reflexivity |].
  intro H. inversion H as [| ? ? _ Hall]; subst.
  inversion Hall as [| ? ? Hord _]; subst.
  unfold spec_order in Hord. simpl in Hord. lia.
Qed.

(** An engine that uses the freedom the ordering leaves it: for the
    statement of the first page it returns rows with equal [created_at]
    latest row first, for every other statement in the order of the scan. *)
Fixpoint insert_desc_last (b : BoxDB) (l : list BoxDB) : list BoxDB :=
  match l with
  | [] => [b]
  | x :: r =>
      if DB.created_at x <? DB.created_at b then b :: l
      else x :: insert_desc_last b r
  end.

Definition sort_desc_last (l : list BoxDB) : list BoxDB :=
  fold_right insert_desc_last [] l.

Definition plan_order (q : Select) (l : list BoxDB) : list BoxDB :=
  match offset_limit q with
  | Some (0, _) => sort_desc_last l
  | _ => Reference.sort_desc l
  end.

Lemma insert_desc_last_perm (b : BoxDB) (l : list BoxDB) :
  Permutation (insert_desc_last b l) (b :: l).
Proof.
  induction l as [| x r IH]; simpl.
  - apply Permutation_refl.
  - destruct (DB.created_at x <? DB.created_at b).
    + apply Permutation_refl.
    + eapply perm_trans; [apply perm_skip, IH | apply perm_swap].
Qed.

Lemma insert_desc_last_sorted (b : BoxDB) (l : list BoxDB) :
  StronglySorted newest_first l ->
  StronglySorted newest_first (insert_desc_last b l).
Proof.
  induction 1 as [| x r Hs IH Hall]; simpl.
  - repeat constructor.
  - destruct (DB.created_at x <? DB.created_at b) eqn:E.
    + apply Z.ltb_lt in E. constructor; [now constructor |].
      constructor; [unfold newest_first; lia |].
      eapply Forall_impl; [| exact Hall].
      unfold newest_first. intros y Hy. lia.
    + apply Z.ltb_ge in E. constructor; [exact IH |].
      eapply Permutation_Forall; [apply Permutation_sym, insert_desc_last_perm |].
      constructor; [unfold newest_first; lia | exact Hall].
Qed.

Lemma plan_order_perm (q : Select) (l : list BoxDB) :
  Permutation (plan_order q l) l.
Proof.
  assert (H : Permutation (sort_desc_last l) l).
  { induction l as [| b l IH]; simpl; [constructor |].
    eapply perm_trans; [apply insert_desc_last_perm | now apply perm_skip]. }
  unfold plan_order.
  destruct (offset_limit q) as [[[| n | n] lim] |];
    first [exact H | apply sort_desc_perm].
Qed.

Lemma plan_order_sorted (q : Select) (l : list BoxDB) :
  StronglySorted newest_first (plan_order q l).
Proof.
  assert (H : StronglySorted newest_first (sort_desc_last l)).
  { induction l as [| b l IH]; simpl; [constructor |].
    now apply insert_desc_last_sorted. }
  unfold plan_order.
  destruct (offset_limit q) as [[[| n | n] lim] |];
    first [exact H | apply sort_desc_sorted].
Qed.

Definition planning_backend : Backend := {|
  contains := fun column s => Reference.substring_of s column;
  order_by_created_at_desc := plan_order;
  order_by_perm := plan_order_perm;
  order_by_sorted := plan_order_sorted;
  strftime := Reference.format_seconds
|}.

(** Two newest-first orders of the same rows are the same order when no
    two rows share a [created_at]. *)
Lemma newest_first_unique (l1 l2 : list BoxDB) :
  NoDup (map DB.created_at l1) ->
  Permutation l1 l2 ->
  StronglySorted newest_first l1 ->
  StronglySorted newest_first l2 ->
  l1 = l2.
Proof.
  revert l2. induction l1 as [| a t1 IH]; intros l2 Hnd Hperm H1 H2.
  - now apply Permutation_nil in Hperm.
  - destruct l2 as [| b t2];
      [apply Permutation_sym, Permutation_nil in Hperm; discriminate Hperm |].
    inversion H1 as [| ? ? Hs1 Hall1]; subst.
    inversion H2 as [| ? ? Hs2 Hall2]; subst.
    rewrite Forall_forall in Hall1, Hall2. unfold newest_first in Hall1, Hall2.
    assert (Hb : In b (a :: t1))
      by (apply (Permutation_in _ (Permutation_sym Hperm)); now left).
    assert (Ha : In a (b :: t2))
      by (apply (Permutation_in _ Hperm); now left).
    assert (Hab : a = b).
    { apply (NoDup_map_eq DB.created_at (a :: t1));
        [exact Hnd | now left | exact Hb |].
      destruct Hb as [-> | Hb]; [reflexivity |].
      destruct Ha as [<- | Ha]; [reflexivity |].
      pose proof (Hall1 b Hb). pose proof (Hall2 a Ha). lia. }
    subst b. f_equal. apply Permutation_cons_inv in Hperm.
    inversion Hnd; subst. now apply IH.
Qed.

Lemma or_empty_nullable_text (x : option string) :
  or_empty x = nullable_text x.
Proof. destruct x as [[| c r] |]; reflexivity. Qed.

Lemma NoDup_slice {A : Type} (n m : nat) (l : list A) :
  NoDup l -> NoDup (firstn n (skipn m l)).
Proof.
  intro H. rewrite <- (firstn_skipn m l) in H.
  apply NoDup_app_remove_l in H.
  rewrite <- (firstn_skipn n (skipn m l)) in H.
  now apply NoDup_app_remove_r in H.
Qed.

Section ExportTheory.

Context {backend : Backend}.

Lemma page_offset (k : nat) (page_size : Z) :
  (1 <= k)%nat -> 0 <= page_size ->
  Z.to_nat ((Z.of_nat k - 1) * page_size) = ((k - 1) * Z.to_nat page_size)%nat.
Proof.
  intros Hk Hs.
  replace (Z.of_nat k - 1) with (Z.of_nat (k - 1)) by lia.
  rewrite Z2Nat.inj_mul by lia. now rewrite Nat2Z.id.
Qed.

Lemma sheet_row_cells (b : BoxDB) : sheet_row b = record_cells strftime b.
Proof.
  unfold sheet_row, record_cells. now rewrite !or_empty_nullable_text.
Qed.

(** With distinct timestamps every statement sees the same order. *)
Lemma matching_unique (q1 q2 : Select) (st : Store)
  (search process : option string) :
  NoDup (map DB.created_at (filter (selects search process) (rows st))) ->
  matching q1 st search process = matching q2 st search process.
Proof.
  intro Hnd. unfold matching. apply newest_first_unique.
  - eapply Permutation_NoDup; [| exact Hnd].
    apply Permutation_map, Permutation_sym, order_by_perm.
  - eapply perm_trans; [apply order_by_perm |].
    apply Permutation_sym, order_by_perm.
  - apply order_by_sorted.
  - apply order_by_sorted.
Qed.

Lemma list_all_matching (st : Store) (page_size : Z)
  (search process : option string) :
  1 <= page_size <= 1000 ->
  NoDup (map DB.created_at (filter (selects search process) (rows st))) ->
  list_all st page_size search process
  = matching (export_select search process) st search process.
Proof.
  intros Hs Hnd. unfold list_all.
  rewrite get_boxes_ok by lia. cbn [total_pages].
  set (T := Z.of_nat (List.length (filter (selects search process) (rows st)))).
  rewrite (flat_map_ext_on _
             (fun k => firstn (Z.to_nat page_size)
                         (skipn ((k - 1) * Z.to_nat page_size)
                            (matching (export_select search process)
                               st search process)))).
  - apply pages_concat. rewrite matching_length.
    assert (HT : 0 <= T) by apply Nat2Z.is_nonneg.
    pose proof (ceil_div_bounds T page_size HT ltac:(lia)) as [_ Hup].
    assert (Hpos : 0 <= (T + page_size - 1) / page_size)
      by (apply Z.div_pos; lia).
    apply Nat2Z.inj_le. rewrite Nat2Z.inj_mul, !Z2Nat.id by lia. exact Hup.
  - intros k Hk. apply in_seq in Hk.
    rewrite get_boxes_ok by lia. cbn [page_items items].
    rewrite page_offset by lia.
    now rewrite (matching_unique _ (export_select search process)).
Qed.

(** C9 (as the code has it): the export and the list query with the same
    filters select the same records, the stored records that the search
    and the process filter let through; the list counts as many records as
    the export writes, every record on a page is an exported record, and
    both come newest first; each row of the sheet holds the field values of
    its record, [NULL] as empty text and timestamps formatted.  When no two
    selected records have the same [created_at], the exported sequence is
    the list, page after page and in the same order, and each page is the
    corresponding slice of it. *)
Theorem export_matches_list (st : Store) (page_size : Z)
  (search process : option string) :
  1 <= page_size <= 1000 ->
  (forall b,
     In b (export_boxes st search process)
     <-> In b (rows st) /\ selects search process b = true)
  /\ StronglySorted newest_first (export_boxes st search process)
  /\ export_to_excel st search process
     = headers :: map (record_cells strftime) (export_boxes st search process)
  /\ (forall page,
        1 <= page ->
        exists r,
          get_boxes st (Some page) (Some page_size) search process = Ok r
          /\ total r
             = Z.of_nat (List.length (export_boxes st search process))
          /\ (forall b, In b (items r) ->
                        In b (export_boxes st search process))
          /\ StronglySorted newest_first (items r))
  /\ (NoDup (map DB.created_at (filter (selects search process) (rows st))) ->
      export_boxes st search process = list_all st page_size search process
      /\ export_to_excel st search process
         = headers
             :: map (record_cells strftime)
                  (list_all st page_size search process)
      /\ (forall page,
            1 <= page ->
            page_items
              (get_boxes st (Some page) (Some page_size) search process)
            = firstn (Z.to_nat page_size)
                (skipn (Z.to_nat ((page - 1) * page_size))
                   (export_boxes st search process)))).
Proof.
  intro Hs.
  assert (Hin : forall q b,
             In b (matching q st search process)
             <-> In b (rows st) /\ selects search process b = true).
  { intros q b. rewrite <- filter_In. unfold matching. split; intro Hb.
    - eapply Permutation_in; [apply order_by_perm | exact Hb].
    - eapply Permutation_in; [apply Permutation_sym, order_by_perm | exact Hb]. }
  assert (Hsheet : export_to_excel st search process
                   = headers :: map (record_cells strftime)
                                  (export_boxes st search process)).
  { unfold export_to_excel. f_equal. apply map_ext, sheet_row_cells. }
  split; [rewrite export_boxes_matching; apply Hin |].
  split; [rewrite export_boxes_matching; apply StronglySorted_matching_key |].
  split; [exact Hsheet |]. split.
  - intros page Hp. eexists. split; [now apply get_boxes_ok |].
    cbn [total items]. rewrite export_boxes_matching, matching_length.
    split; [reflexivity |]. split.
    + intros b Hb. apply Hin.
      apply (Hin (page_select search process page page_size)).
      set (L := matching _ st search process) in *.
      rewrite (slice_decompose (Z.to_nat page_size)
                 (Z.to_nat ((page - 1) * page_size)) L).
      apply in_or_app. right. apply in_or_app. now left.
    + apply StronglySorted_slice, StronglySorted_matching_key.
  - intro Hnd.
    assert (H : export_boxes st search process
                = list_all st page_size search process)
      by (now rewrite list_all_matching, export_boxes_matching).
    split; [exact H |]. split; [now rewrite <- H |].
    intros page Hp. rewrite get_boxes_ok, export_boxes_matching by lia.
    cbn [page_items items].
    now rewrite (matching_unique _ (export_select search process)).
Qed.

(** C10: in the list and in the export, a [search] or a [process] given as
    the empty string has the effect of one that is absent; with no other
    filter the export then holds every stored record, the list counts every
    stored record, and on a store that is not empty its first page is not
    empty. *)
Theorem empty_filter_is_absent (st : Store) (page page_size : option Z)
  (search process : option string) :
  get_boxes st page page_size (Some "") process
  = get_boxes st page page_size None process
  /\ get_boxes st page page_size search (Some "")
     = get_boxes st page page_size search None
  /\ export_to_excel st (Some "") process = export_to_excel st None process
  /\ export_to_excel st search (Some "") = export_to_excel st search None
  /\ (forall b, In b (rows st) <-> In b (export_boxes st (Some "") (Some "")))
  /\ (rows st <> [] ->
      exists r,
        get_boxes st None None (Some "") (Some "") = Ok r
        /\ total r = Z.of_nat (List.length (rows st))
        /\ 0 < total r
        /\ items r <> []).
Proof.
  split; [reflexivity |]. split; [reflexivity |].
  split; [reflexivity |]. split; [reflexivity |]. split.
  - intro b. cbn. split; intro Hb.
    + eapply Permutation_in; [apply Permutation_sym, order_by_perm | exact Hb].
    + eapply Permutation_in; [apply order_by_perm | exact Hb].
  - intro Hne. eexists. split; [reflexivity |].
    cbn [total items truthy]. split; [reflexivity |].
    destruct (rows st) as [| b rs] eqn:E; [contradiction |].
    split; [simpl; lia |].
    intro Hnil. apply (f_equal (@List.length BoxDB)) in Hnil.
    rewrite length_firstn, length_skipn in Hnil.
    rewrite (Permutation_length (order_by_perm _ _)) in Hnil.
    simpl in Hnil. lia.
Qed.

End ExportTheory.

Lemma export_matches_list_witness :
  @export_boxes planning_backend store_five None (Some "ETCH")
  = @list_all planning_backend store_five 2 None (Some "ETCH").
Proof.
  destruct (export_matches_list (backend := planning_backend) store_five 2
              None (Some "ETCH")) as (_ & _ & _ & _ & H); [lia |].
  apply H. simpl. repeat constructor; simpl; intuition discriminate.
Defined.

(** C9 (as worded) fails: the list asks for one page at a time and the
    export for all rows, each with [created_at] descending and nothing
    more; for two boxes registered at the same instant an engine may
    answer the first page with the later row first and every other
    statement in the order of the scan.  Pages of one then show the second
    box twice while the sheet has the first box and then the second. *)
Lemma paged_list_differs_from_export :
  @list_all planning_backend store_tied 1 None None
  = [tied 2 "AA:BB:CC:DD:EE:02"; tied 2 "AA:BB:CC:DD:EE:02"]
  /\ @export_boxes planning_backend store_tied None None
     = [tied 1 "AA:BB:CC:DD:EE:01"; tied 2 "AA:BB:CC:DD:EE:02"]
  /\ @export_boxes planning_backend store_tied None None
     <> @list_all planning_backend store_tied 1 None None.
Proof. repeat split. discriminate. Qed.

Lemma empty_filter_is_absent_witness :
  exists r,
    @get_boxes reference_backend store_one None None (Some "") (Some "") = Ok r
    /\ total r = Z.of_nat (List.length (rows store_one))
    /\ 0 < total r
    /\ items r <> [].
Proof.
  apply (empty_filter_is_absent (backend := reference_backend) store_one None
           None None None).
  discriminate.
Defined.

(** ** Maintenance: uppercasing stored processes *)

Lemma needs_upper_truthy (b : BoxDB) :
  needs_upper b = true -> truthy (DB.process b) = true.
Proof.
  unfold needs_upper. destruct (DB.process b); [discriminate | reflexivity].
Qed.

Lemma needs_upper_set_process (b : BoxDB) (now : Z) :
  needs_upper (set_process b (upper (DB.process b)) now) = false.
Proof.
  unfold needs_upper. simpl. now rewrite upper_idempotent, String.eqb_refl.
Qed.

(** One step of the loop, by whether the row needs rewriting. *)
Lemma normalize_loop_cons (utcnow : Z -> Z) (box : BoxDB) (rest : list BoxDB)
  (k : Z) :
  normalize_loop utcnow (box :: rest) k
  = if needs_upper box
    then (set_process box (upper (DB.process box)) (utcnow k)
            :: fst (normalize_loop utcnow rest (k + 1)),
          snd (normalize_loop utcnow rest (k + 1)))
    else (box :: fst (normalize_loop utcnow rest k),
          snd (normalize_loop utcnow rest k)).
Proof.
  cbn [normalize_loop]. destruct (needs_upper box) eqn:E.
  - rewrite (needs_upper_truthy _ E). unfold needs_upper in E. rewrite E.
    now destruct (normalize_loop utcnow rest (k + 1)).
  - unfold needs_upper in E. rewrite E.
    destruct (truthy (DB.process box));
      now destruct (normalize_loop utcnow rest k).
Qed.

Lemma normalize_loop_count (utcnow : Z -> Z) (boxes : list BoxDB) (k : Z) :
  snd (normalize_loop utcnow boxes k)
  = k + Z.of_nat (List.length (filter needs_upper boxes)).
Proof.
  revert k. induction boxes as [| box rest IH]; intro k.
  - simpl. lia.
  - rewrite normalize_loop_cons. cbn [filter].
    destruct (needs_upper box); cbn [snd]; rewrite IH; simpl List.length; lia.
Qed.

Lemma rewritten_weaken (utcnow : Z -> Z) (lo lo' n : Z) (old new : BoxDB) :
  lo' <= lo -> rewritten utcnow lo n old new -> rewritten utcnow lo' n old new.
Proof.
  unfold rewritten. intro Hle. destruct (needs_upper old); [| exact (fun H => H)].
  intros (j & Hj & ->). exists j. split; [lia | reflexivity].
Qed.

Lemma normalize_loop_rows (utcnow : Z -> Z) (boxes : list BoxDB) (k : Z) :
  Forall2 (rewritten utcnow k (snd (normalize_loop utcnow boxes k)))
    boxes (fst (normalize_loop utcnow boxes k)).
Proof.
  revert k. induction boxes as [| box rest IH]; intro k.
  - constructor.
  - rewrite normalize_loop_cons. destruct (needs_upper box) eqn:E; cbn [fst snd].
    + constructor.
      * unfold rewritten. rewrite E. exists k. split; [| reflexivity].
        rewrite normalize_loop_count. lia.
      * eapply Forall2_impl; [| apply IH].
        intros old new. apply rewritten_weaken. lia.
    + constructor; [unfold rewritten; now rewrite E | apply IH].
Qed.

Lemma normalize_loop_normal (utcnow : Z -> Z) (boxes : list BoxDB) (k : Z) :
  Forall (fun b => needs_upper b = false) (fst (normalize_loop utcnow boxes k)).
Proof.
  revert k. induction boxes as [| box rest IH]; intro k.
  - constructor.
  - rewrite normalize_loop_cons. destruct (needs_upper box) eqn:E; cbn [fst].
    + constructor; [apply needs_upper_set_process | apply IH].
    + constructor; [exact E | apply IH].
Qed.

Lemma normalize_loop_fixed (utcnow : Z -> Z) (boxes : list BoxDB) (k : Z) :
  Forall (fun b => needs_upper b = false) boxes ->
  normalize_loop utcnow boxes k = (boxes, k).
Proof.
  induction 1 as [| box rest Hbox _ IH].
  - reflexivity.
  - rewrite normalize_loop_cons, Hbox, IH. reflexivity.
Qed.


Example normalize_legacy_twice :
  snd (normalize_processes store_legacy (fun k => 500 + k)) = 2
  /\ rows (fst (normalize_processes store_legacy (fun k => 500 + k)))
     = [set_process (legacy 1 "etch") "ETCH" 500; legacy 2 "ETCH";
        set_process (legacy 3 "Litho") "LITHO" 501]
  /\ snd (normalize_processes
            (fst (normalize_processes store_legacy (fun k => 500 + k)))
            (fun k => 900 + k)) = 0.
Proof. repeat split. Qed.

(** ** The table invariant *)

Lemma NoDup_snoc {A : Type} (l : list A) (x : A) :
  NoDup l -> ~ In x l -> NoDup (l ++ [x]).
Proof.
  intros Hl Hx. eapply Permutation_NoDup; [apply Permutation_cons_append |].
  now constructor.
Qed.

Lemma empty_store_well_formed : well_formed empty_store.
Proof. repeat split; constructor. Qed.

(** A successful create keeps the primary key and the unique index. *)
Lemma create_box_well_formed (st st' : Store) (box : Create.BoxCreate)
  (now_c now_u : Z) (b : BoxDB) :
  well_formed st ->
  create_box st box now_c now_u = Ok (st', b) ->
  well_formed st'.
Proof.
  intros (Hids & Hmacs & Hlt). unfold create_box.
  destruct (first_by_mac (rows st) (Create.mac_address box)) eqn:F;
    [discriminate |].
  destruct (violates_unique _ _); [discriminate |].
  intros [= <- <-]. unfold well_formed. cbn [rows next_id].
  rewrite !map_app. cbn [map DB.id DB.mac_address].
  split; [| split].
  - apply NoDup_snoc; [exact Hids |]. intro Hin.
    apply in_map_iff in Hin. destruct Hin as (r & Hr & Hin).
    rewrite Forall_forall in Hlt. apply Hlt in Hin. lia.
  - apply NoDup_snoc; [exact Hmacs |]. intro Hin.
    apply in_map_iff in Hin. destruct Hin as (r & Hr & Hin).
    exact (proj1 (first_by_mac_none _ _) F r Hin Hr).
  - apply Forall_app. split.
    + eapply Forall_impl; [| exact Hlt]. intros r Hr. simpl in Hr. lia.
    + constructor; [simpl; lia | constructor].
Qed.

Lemma violates_unique_none (rs : list BoxDB) (b r : BoxDB) :
  violates_unique rs b = false -> In r rs ->
  DB.mac_address r = DB.mac_address b -> DB.id r = DB.id b.
Proof.
  unfold violates_unique. intros H Hr Hmac.
  destruct (DB.id r =? DB.id b) eqn:E; [now apply Z.eqb_eq |].
  exfalso. apply not_true_iff_false in H. apply H.
  apply existsb_exists. exists r. split; [exact Hr |].
  now rewrite E, Hmac, String.eqb_refl.
Qed.

Lemma replace_row_ids (rs : list BoxDB) (b : BoxDB) :
  map DB.id (replace_row rs b) = map DB.id rs.
Proof.
  unfold replace_row. rewrite map_map. apply map_ext. intro r.
  destruct (DB.id r =? DB.id b) eqn:E; [| reflexivity].
  apply Z.eqb_eq in E. now symmetry.
Qed.

(** A successful update keeps them too. *)
Lemma update_box_well_formed (st st' : Store) (box_id : Z)
  (u : Update.BoxUpdate) (now : Z) (b : BoxDB) :
  well_formed st ->
  update_box st box_id u now = Ok (st', b) ->
  well_formed st'.
Proof.
  intros (Hids & Hmacs & Hlt). unfold update_box.
  destruct (first_by_id (rows st) box_id) as [old |] eqn:Hold; [| discriminate].
  apply first_by_id_some in Hold. destruct Hold as [Hin Hid].
  destruct (match attr (Update.mac_address u) with
            | Some m => _
            | None => false
            end); [discriminate |].
  destruct (set_required (Update.mac_address u) (DB.mac_address old))
    as [m |]; [| discriminate].
  destruct (set_required (Update.process u) (DB.process old))
    as [p |]; [| discriminate].
  match goal with
  | |- context [violates_unique (rows st) ?row] => set (new := row)
  end.
  destruct (violates_unique (rows st) new) eqn:V; [discriminate |].
  intros [= <- <-]. unfold well_formed. cbn [rows next_id].
  assert (Hnew : DB.id new = DB.id old) by reflexivity.
  split; [now rewrite replace_row_ids |]. split.
  - unfold replace_row. rewrite map_map.
    apply NoDup_map_NoDup_ForallPairs; [| now apply NoDup_map_inv in Hids].
    intros x y Hx Hy. cbv beta.
    destruct (Z.eqb_spec (DB.id x) (DB.id new)) as [Ex | Ex],
             (Z.eqb_spec (DB.id y) (DB.id new)) as [Ey | Ey]; intro Heq.
    + apply (NoDup_map_eq DB.id (rows st)); congruence.
    + symmetry in Heq. apply (violates_unique_none _ _ _ V Hy) in Heq.
      contradiction.
    + apply (violates_unique_none _ _ _ V Hx) in Heq. contradiction.
    + now apply (NoDup_map_eq DB.mac_address (rows st)).
  - rewrite Forall_forall in *. intros r Hr. unfold replace_row in Hr.
    apply in_map_iff in Hr. destruct Hr as (x & <- & Hx).
    destruct (DB.id x =? DB.id new); [| now apply Hlt].
    rewrite Hnew. now apply Hlt.
Qed.

Example empty_update_touches_updated_at :
  put_boxes store_one 1 no_update 300
  = Ok (mkStore
          [DB.mkBoxDB 1 "AA:BB:CC:DD:EE:FF" None None None "ETCH" None None
             100 300] 2,
        DB.mkBoxDB 1 "AA:BB:CC:DD:EE:FF" None None None "ETCH" None None
          100 300).
Proof. reflexivity. Qed.

(** * The rest of the API: lookup, deletion, process names, start-up *)

(** [get_box] *)
Definition get_box (st : Store) (box_id : Z) : result ApiError BoxDB :=
  match first_by_id (rows st) box_id with
  | None => Err NotFound
  | Some box => Ok box
  end.

(** [delete_box]: the row found is deleted by its primary key. *)
Definition delete_box (st : Store) (box_id : Z) : result ApiError Store :=
  match first_by_id (rows st) box_id with
  | None => Err NotFound
  | Some db_box =>
      Ok (mkStore
            (filter (fun r => negb (DB.id r =? DB.id db_box)) (rows st))
            (next_id st))
  end.

(** [SELECT DISTINCT process FROM iot_boxes]: every stored value, once. *)
Definition distinct_processes (rs : list BoxDB) : list string :=
  nodup string_dec (map DB.process rs).

(** [x in seen] *)
Definition mem (x : string) (seen : list string) : bool :=
  existsb (String.eqb x) seen.

(** The loop of [get_processes] over the rows of the query. *)
Fixpoint unique_upper (processes seen unique_processes : list string)
  : list string :=
  match processes with
  | [] => unique_processes
  | p :: rest =>
      if truthy p then
        let upper_process := upper p in
        if negb (mem upper_process seen)
        then unique_upper rest (upper_process :: seen)
               (unique_processes ++ [upper_process])
        else unique_upper rest seen unique_processes
      else unique_upper rest seen unique_processes
  end.

Fixpoint insert_sorted (x : string) (l : list string) : list string :=
  match l with
  | [] => [x]
  | y :: r => if String.leb x y then x :: l else y :: insert_sorted x r
  end.

(** [sorted(l)] on strings: ascending by code point. *)
Definition sorted (l : list string) : list string :=
  fold_right insert_sorted [] l.

(** [get_processes], on the rows that the query returned. *)
Definition get_processes_of (processes : list string) : list string :=
  sorted (unique_upper processes [] []).

(** [get_processes] *)
Definition get_processes (st : Store) : list string :=
  get_processes_of (distinct_processes (rows st)).

(** How [startup] ends: it returns, or the last exception is raised again;
    either way after a number of one-second sleeps. *)
Inductive Startup : Type :=
| Returned (sleeps : nat)
| Raised (sleeps : nat).

(** The loop of [startup] over the rest of [range(max_retries)].
    [create_all i] tells whether the attempt of round [i] goes through. *)
Fixpoint startup_loop (create_all : nat -> bool) (max_retries : nat)
  (range : list nat) (sleeps : nat) : Startup :=
  match range with
  | [] => Returned sleeps
  | i :: rest =>
      if create_all i then Returned sleeps
      else if (i <? max_retries - 1)%nat
           then startup_loop create_all max_retries rest (S sleeps)
           else Raised sleeps
  end.

(** [startup] *)
Definition startup (create_all : nat -> bool) : Startup :=
  let max_retries := 30%nat in
  startup_loop create_all max_retries (seq 0 max_retries) 0.

(** A request that can change the table. *)
Inductive Request : Type :=
| RCreate (body : Body.CreateRequest) (now_c now_u : Z)
| RUpdate (box_id : Z) (body : Update.BoxUpdate) (now : Z)
| RDelete (box_id : Z)
| RNormalize (utcnow : Z -> Z).

(** The table after a request; a request that fails commits nothing. *)
Definition handle (st : Store) (r : Request) : Store :=
  match r with
  | RCreate body now_c now_u => store_after st (post_boxes st body now_c now_u)
  | RUpdate box_id body now => store_after st (put_boxes st box_id body now)
  | RDelete box_id =>
      match delete_box st box_id with
      | Ok st' => st'
      | Err _ => st
      end
  | RNormalize utcnow => fst (normalize_processes st utcnow)
  end.

Definition run (st : Store) (requests : list Request) : Store :=
  fold_left handle requests st.

(** Every stored address is an accepted address in normal form, and every
    stored process is uppercase. *)
Definition normalized (st : Store) : Prop :=
  Forall (fun r => BoxBase.validate_mac (DB.mac_address r)
                   = Ok (DB.mac_address r)
                   /\ DB.process r = upper (DB.process r)) (rows st).

(** The request body that submits a validated record again. *)
Definition body_of (box : Create.BoxCreate) : Body.CreateRequest :=
  Body.mkCreateRequest (Some (Create.mac_address box)) (Create.ip_address box)
    (Create.main_equipment box) (Create.location box)
    (Some (Create.process box)) (Create.manager box) (Create.note box).

(** Text within the ASCII range, the range on which [is_digit] is the
    [\d] of the pattern; beyond it [\d] also takes the decimal digits of
    other scripts, which this development has no characters for. *)
Fixpoint is_ascii_text (s : string) : bool :=
  match s with
  | EmptyString => true
  | String c r => (N.ltb (N_of_ascii c) 128 && is_ascii_text r)%bool
  end.

(** One to three decimal digits. *)
Definition digit_group (g : string) : Prop :=
  (1 <= String.length g <= 3)%nat
  /\ forall i c, String.get i g = Some c -> is_digit c = true.

(** Four groups of one to three decimal digits, with dots in between. *)
Definition ip_shape (v : string) : Prop :=
  exists a b c d,
    digit_group a /\ digit_group b /\ digit_group c /\ digit_group d
    /\ v = (a ++ "." ++ b ++ "." ++ c ++ "." ++ d)%string.

Example processes_sample :
  get_processes
    (mkStore [legacy 1 "etch"; legacy 2 "ETCH"; legacy 3 "Litho"; legacy 4 ""] 5)
  = ["ETCH"; "LITHO"].
Proof. reflexivity. Qed.

Example startup_third_round :
  startup (fun i => (2 <=? i)%nat) = Returned 2.
Proof. reflexivity. Qed.

Example startup_never : startup (fun _ => false) = Raised 29.
Proof. reflexivity. Qed.

(** ** Lookup by primary key *)

Lemma first_by_id_none (rs : list BoxDB) (box_id : Z) :
  first_by_id rs box_id = None <-> ~ In box_id (map DB.id rs).
Proof.
  unfold first_by_id. split.
  - intros H Hin. apply in_map_iff in Hin. destruct Hin as (r & Hid & Hr).
    apply (find_none _ _ H) in Hr. rewrite Hid, Z.eqb_refl in Hr.
    discriminate Hr.
  - intro H. destruct (find _ rs) as [r |] eqn:E; [| reflexivity].
    apply find_some in E. destruct E as [Hr Hid]. apply Z.eqb_eq in Hid.
    exfalso. apply H. rewrite <- Hid. now apply in_map.
Qed.

Lemma first_by_id_in (rs : list BoxDB) (b : BoxDB) :
  NoDup (map DB.id rs) -> In b rs -> first_by_id rs (DB.id b) = Some b.
Proof.
  intros Hnd Hb. destruct (first_by_id rs (DB.id b)) as [r |] eqn:E.
  - apply first_by_id_some in E. destruct E as [Hr Hid]. f_equal.
    now apply (NoDup_map_eq DB.id rs).
  - exfalso. apply (proj1 (first_by_id_none _ _) E). now apply in_map.
Qed.

Lemma find_app_fresh {A : Type} (f : A -> bool) (l : list A) (x : A) :
  find f l = None -> find f (l ++ [x]) = if f x then Some x else None.
Proof.
  induction l as [| a l IH]; simpl; [reflexivity |].
  destruct (f a); [discriminate | exact IH].
Qed.

Lemma find_app_old {A : Type} (f : A -> bool) (l : list A) (x : A) :
  f x = false -> find f (l ++ [x]) = find f l.
Proof.
  intro Hx. induction l as [| a l IH]; simpl; [now rewrite Hx |].
  now destruct (f a).
Qed.

Lemma find_filter {A : Type} (f g : A -> bool) (l : list A) :
  (forall x, f x = true -> g x = true) -> find f (filter g l) = find f l.
Proof.
  intro H. induction l as [| a l IH]; simpl; [reflexivity |].
  destruct (g a) eqn:G; simpl.
  - now rewrite IH.
  - destruct (f a) eqn:F; [| exact IH]. apply H in F. congruence.
Qed.

Lemma find_map_replace (rs : list BoxDB) (b : BoxDB) (box_id : Z) :
  first_by_id (replace_row rs b) box_id
  = if box_id =? DB.id b
    then match first_by_id rs box_id with Some _ => Some b | None => None end
    else first_by_id rs box_id.
Proof.
  unfold first_by_id, replace_row.
  induction rs as [| r rs IH]; simpl; [now destruct (box_id =? DB.id b) |].
  rewrite IH. clear IH.
  destruct (Z.eqb_spec (DB.id r) (DB.id b)) as [E | E];
    destruct (Z.eqb_spec box_id (DB.id b)) as [G | G];
    destruct (Z.eqb_spec (DB.id r) box_id) as [F | F];
    try destruct (Z.eqb_spec (DB.id b) box_id) as [K | K];
    try reflexivity; congruence.
Qed.

(** X1: on a table with unique ids, [get_box] answers with a box exactly
    when that box is stored under the id asked for, and with NotFound
    exactly when no stored box has the id. *)
Theorem get_box_lookup (st : Store) (box_id : Z) :
  NoDup (map DB.id (rows st)) ->
  (forall b, get_box st box_id = Ok b <-> In b (rows st) /\ DB.id b = box_id)
  /\ (get_box st box_id = Err NotFound <-> ~ In box_id (map DB.id (rows st)))
  /\ (forall e, get_box st box_id = Err e -> e = NotFound).
Proof.
  intro Hnd. unfold get_box. split; [| split].
  - intro b. split.
    + destruct (first_by_id (rows st) box_id) as [r |] eqn:E; [| discriminate].
      intros [= <-]. now apply first_by_id_some.
    + intros [Hb <-]. now rewrite first_by_id_in.
  - rewrite <- first_by_id_none.
    destruct (first_by_id (rows st) box_id); split;
      first [discriminate | reflexivity].
  - intro e. destruct (first_by_id (rows st) box_id); [discriminate |].
    now intros [= <-].
Qed.

Lemma get_box_lookup_witness :
  get_box store_five 3 = Ok (numbered 3 30)
  <-> In (numbered 3 30) (rows store_five) /\ DB.id (numbered 3 30) = 3.
Proof.
  apply (get_box_lookup store_five 3).
  simpl. repeat constructor; simpl; intuition discriminate.
Defined.

(** ** Create, then look up *)

Lemma post_boxes_ok (st st' : Store) (body : Body.CreateRequest)
  (now_c now_u : Z) (b : BoxDB) :
  post_boxes st body now_c now_u = Ok (st', b) ->
  exists box,
    parse_BoxCreate body = Ok box
    /\ first_by_mac (rows st) (Create.mac_address box) = None
    /\ create_box st box now_c now_u = Ok (st', b)
    /\ st' = mkStore (rows st ++ [b]) (next_id st + 1)
    /\ b = DB.mkBoxDB (next_id st) (Create.mac_address box)
             (Create.ip_address box) (Create.main_equipment box)
             (Create.location box) (Create.process box) (Create.manager box)
             (Create.note box) now_c now_u.
Proof.
  unfold post_boxes.
  destruct (parse_BoxCreate body) as [box | errs]; [| discriminate].
  intro H. exists box. split; [reflexivity |]. revert H. unfold create_box.
  destruct (first_by_mac (rows st) (Create.mac_address box)) eqn:F;
    [discriminate |].
  destruct (violates_unique _ _) eqn:V; [discriminate |].
  intros [= <- <-]. now repeat split.
Qed.

(** X2: a box that was just created is found under its id, exactly as
    returned; its id is the counter of the table, above every id in use; it
    carries the two clock readings; and every other id is looked up as
    before. *)
Theorem create_then_get (st st' : Store) (body : Body.CreateRequest)
  (now_c now_u : Z) (b : BoxDB) :
  well_formed st ->
  post_boxes st body now_c now_u = Ok (st', b) ->
  get_box st' (DB.id b) = Ok b
  /\ DB.id b = next_id st
  /\ (forall r, In r (rows st) -> DB.id r < DB.id b)
  /\ DB.created_at b = now_c /\ DB.updated_at b = now_u
  /\ next_id st' = next_id st + 1
  /\ (forall box_id, box_id <> DB.id b ->
                     get_box st' box_id = get_box st box_id).
Proof.
  intros (Hids & _ & Hlt) H. apply post_boxes_ok in H.
  destruct H as (box & _ & _ & _ & -> & ->).
  cbn [DB.id DB.created_at DB.updated_at next_id].
  rewrite Forall_forall in Hlt.
  assert (Hfresh : first_by_id (rows st) (next_id st) = None).
  { apply first_by_id_none. intro Hin. apply in_map_iff in Hin.
    destruct Hin as (r & Hid & Hr). apply Hlt in Hr. lia. }
  split; [| split; [reflexivity | split; [exact Hlt |]]].
  - unfold get_box, first_by_id. cbn [rows].
    rewrite find_app_fresh by exact Hfresh. cbn [DB.id].
    now rewrite Z.eqb_refl.
  - repeat split. intros box_id Hne. unfold get_box, first_by_id. cbn [rows].
    rewrite find_app_old; [reflexivity |]. cbn [DB.id].
    apply Z.eqb_neq. congruence.
Qed.

Lemma create_then_get_witness : get_box store_one (DB.id box_one) = Ok box_one.
Proof.
  apply (create_then_get empty_store store_one
           (sample_body "AA:BB:CC:DD:EE:FF" "etch") 100 100 box_one).
  - repeat split; constructor.
  - reflexivity.
Defined.

(** X3: [create_box] answers DuplicateKey exactly when some stored box
    has the address.  When it succeeds no stored box had the address, and
    the table is the rows it had followed by the new row, which carries the
    validated fields of the request and the two clock readings. *)
Theorem create_box_outcomes (st : Store) (box : Create.BoxCreate)
  (now_c now_u : Z) :
  (create_box st box now_c now_u = Err DuplicateKey
   <-> exists r, In r (rows st) /\ DB.mac_address r = Create.mac_address box)
  /\ (forall st' b,
        create_box st box now_c now_u = Ok (st', b) ->
        (forall r, In r (rows st) ->
                   DB.mac_address r <> Create.mac_address box)
        /\ rows st' = rows st ++ [b]
        /\ DB.mac_address b = Create.mac_address box
        /\ DB.ip_address b = Create.ip_address box
        /\ DB.main_equipment b = Create.main_equipment box
        /\ DB.location b = Create.location box
        /\ DB.process b = Create.process box
        /\ DB.manager b = Create.manager box
        /\ DB.note b = Create.note box
        /\ DB.created_at b = now_c
        /\ DB.updated_at b = now_u).
Proof.
  unfold create_box.
  destruct (first_by_mac (rows st) (Create.mac_address box)) as [r |] eqn:F.
  - apply find_some in F. destruct F as [Hr Hmac]. apply String.eqb_eq in Hmac.
    split; [| discriminate].
    split; [intros _; now exists r | reflexivity].
  - pose proof (proj1 (first_by_mac_none _ _) F) as Hnone. split.
    + split.
      * destruct (violates_unique _ _); discriminate.
      * intros (r & Hr & Hmac). now apply Hnone in Hr.
    + intros st' b. destruct (violates_unique _ _); [discriminate |].
      intros [= <- <-]. split; [exact Hnone |]. now repeat split.
Qed.

Lemma create_box_outcomes_witness :
  (forall r, In r (rows empty_store) ->
             DB.mac_address r <> "AA:BB:CC:DD:EE:FF")
  /\ rows store_one = rows empty_store ++ [box_one].
Proof.
  destruct (create_box_outcomes empty_store
              (Create.mkBoxCreate "AA:BB:CC:DD:EE:FF" None None None "ETCH"
                 None None) 100 100) as [_ H].
  destruct (H store_one box_one eq_refl) as (H1 & H2 & _).
  split; [exact H1 | exact H2].
Defined.

(** ** Delete *)

Lemma NoDup_map_filter {A B : Type} (f : A -> B) (g : A -> bool) (l : list A) :
  NoDup (map f l) -> NoDup (map f (filter g l)).
Proof.
  induction l as [| a l IH]; simpl; intro H; [constructor |].
  inversion H as [| ? ? Hnotin Hnd]; subst.
  destruct (g a); simpl; [| now apply IH].
  constructor; [| now apply IH].
  intro Hin. apply Hnotin. apply in_map_iff in Hin.
  destruct Hin as (x & Hfx & Hx). apply filter_In in Hx.
  apply in_map_iff. exists x. tauto.
Qed.

Lemma filter_all_in {A : Type} (f : A -> bool) (l : list A) :
  (forall x, In x l -> f x = true) -> filter f l = l.
Proof.
  induction l as [| a l IH]; simpl; intro H; [reflexivity |].
  rewrite (H a (or_introl eq_refl)), IH; [reflexivity |].
  intros x Hx. apply H. now right.
Qed.

Lemma filter_out_one (rs : list BoxDB) (b : BoxDB) :
  NoDup (map DB.id rs) -> In b rs ->
  S (List.length (filter (fun r => negb (DB.id r =? DB.id b)) rs))
  = List.length rs.
Proof.
  induction rs as [| r rs IH]; simpl; [contradiction |].
  intros Hnd [-> | Hb]; inversion Hnd as [| ? ? Hnotin Hnd']; subst.
  - rewrite Z.eqb_refl. simpl. f_equal. f_equal.
    apply filter_all_in. intros x Hx.
    destruct (Z.eqb_spec (DB.id x) (DB.id b)) as [E | _]; [| reflexivity].
    exfalso. apply Hnotin. rewrite <- E. now apply in_map.
  - destruct (Z.eqb_spec (DB.id r) (DB.id b)) as [E | _]; simpl.
    + exfalso. apply Hnotin. rewrite E. now apply in_map.
    + f_equal. now apply IH.
Qed.

(** X4: [delete_box] fails with NotFound exactly when no stored box has
    the id.  When it succeeds, the boxes left are the stored boxes with
    another id, in their order; the id is gone, so that looking it up or
    deleting it again is NotFound; every other id is looked up as before;
    the id counter is not wound back; and on a well-formed table exactly
    one row is gone and the table stays well-formed. *)
Theorem delete_box_removes (st : Store) (box_id : Z) :
  (delete_box st box_id = Err NotFound <-> ~ In box_id (map DB.id (rows st)))
  /\ (forall e, delete_box st box_id = Err e -> e = NotFound)
  /\ (forall st',
        delete_box st box_id = Ok st' ->
        rows st' = filter (fun r => negb (DB.id r =? box_id)) (rows st)
        /\ next_id st' = next_id st
        /\ get_box st' box_id = Err NotFound
        /\ delete_box st' box_id = Err NotFound
        /\ (forall other, other <> box_id ->
                          get_box st' other = get_box st other)
        /\ (well_formed st ->
            S (List.length (rows st')) = List.length (rows st)
            /\ well_formed st')).
Proof.
  unfold delete_box at 1 2 3.
  destruct (first_by_id (rows st) box_id) as [b |] eqn:F.
  - pose proof (first_by_id_some _ _ _ F) as [Hb Hid].
    split; [| split; [discriminate |]].
    + split; [discriminate |]. intro H. exfalso. apply H.
      rewrite <- Hid. now apply in_map.
    + intros st' [= <-]. cbn [rows next_id]. rewrite Hid.
      assert (Hgone : first_by_id
                        (filter (fun r => negb (DB.id r =? box_id)) (rows st))
                        box_id = None).
      { apply first_by_id_none. intro Hin. apply in_map_iff in Hin.
        destruct Hin as (r & Hr & Hin). apply filter_In in Hin.
        destruct Hin as [_ Hneq]. rewrite Hr, Z.eqb_refl in Hneq.
        discriminate Hneq. }
      split; [reflexivity |]. split; [reflexivity |].
      split; [unfold get_box; cbn [rows]; now rewrite Hgone |].
      split; [unfold delete_box; cbn [rows]; now rewrite Hgone |].
      split.
      * intros other Hne. unfold get_box, first_by_id. cbn [rows].
        rewrite find_filter; [reflexivity |].
        intros x Hx. apply Z.eqb_eq in Hx. apply negb_true_iff, Z.eqb_neq.
        congruence.
      * intros (Hids & Hmacs & Hlt). split.
        -- rewrite <- Hid. now apply filter_out_one.
        -- unfold well_formed. cbn [rows next_id].
           split; [now apply NoDup_map_filter |].
           split; [now apply NoDup_map_filter |].
           rewrite Forall_forall in *. intros r Hr.
           apply filter_In in Hr. now apply Hlt.
  - split; [| split; [now intros e [= <-] | discriminate]].
    split; [intros _; now apply first_by_id_none | reflexivity].
Qed.

Lemma delete_box_removes_witness :
  S (List.length
       (rows (mkStore [numbered 1 10; numbered 3 30; numbered 4 40;
                       numbered 5 50] 6)))
  = List.length (rows store_five)
  /\ well_formed (mkStore [numbered 1 10; numbered 3 30; numbered 4 40;
                           numbered 5 50] 6).
Proof.
  destruct (delete_box_removes store_five 2) as (_ & _ & Hok).
  destruct (Hok _ eq_refl) as (_ & _ & _ & _ & _ & Hwf).
  apply Hwf. repeat split; simpl.
  - repeat constructor; simpl; intuition discriminate.
  - repeat constructor; simpl; intuition discriminate.
  - repeat constructor.
Defined.

(** ** Update, then look up *)

Lemma put_boxes_ok (st st' : Store) (box_id : Z) (body : Update.BoxUpdate)
  (now : Z) (b : BoxDB) :
  put_boxes st box_id body now = Ok (st', b) ->
  exists u old,
    Update.parse body = Ok u
    /\ update_box st box_id u now = Ok (st', b)
    /\ first_by_id (rows st) box_id = Some old
    /\ st' = mkStore (replace_row (rows st) b) (next_id st)
    /\ DB.id b = DB.id old
    /\ DB.created_at b = DB.created_at old
    /\ DB.updated_at b = now
    /\ violates_unique (rows st) b = false
    /\ set_required (Update.mac_address u) (DB.mac_address old)
       = Some (DB.mac_address b)
    /\ set_required (Update.process u) (DB.process old)
       = Some (DB.process b).
Proof.
  unfold put_boxes.
  destruct (Update.parse body) as [u | errs]; [| discriminate].
  intro H. pose proof H as H0. unfold update_box in H.
  destruct (first_by_id (rows st) box_id) as [old |] eqn:Hold;
    [| discriminate].
  destruct (match attr (Update.mac_address u) with
            | Some m => _
            | None => false
            end); [discriminate |].
  destruct (set_required (Update.mac_address u) (DB.mac_address old))
    as [m |] eqn:Em; [| discriminate].
  destruct (set_required (Update.process u) (DB.process old))
    as [p |] eqn:Ep; [| discriminate].
  destruct (violates_unique (rows st) _) eqn:V; [discriminate |].
  injection H as <- <-. exists u, old.
  split; [reflexivity |]. split; [exact H0 |]. now repeat split.
Qed.

(** X5: after a successful update the box is found under its id exactly
    as the update returned it; the id and [created_at] are those of the
    stored box, [updated_at] is the time of the update; the table has the
    same ids in the same order and the same counter; and every other id is
    looked up as before. *)
Theorem update_then_get (st st' : Store) (box_id : Z)
  (body : Update.BoxUpdate) (now : Z) (b : BoxDB) :
  put_boxes st box_id body now = Ok (st', b) ->
  get_box st' box_id = Ok b
  /\ DB.id b = box_id
  /\ (forall old, get_box st box_id = Ok old ->
                  DB.created_at b = DB.created_at old)
  /\ DB.updated_at b = now
  /\ map DB.id (rows st') = map DB.id (rows st)
  /\ next_id st' = next_id st
  /\ (forall other, other <> box_id ->
                    get_box st' other = get_box st other).
Proof.
  intro H. apply put_boxes_ok in H.
  destruct H as (u & old & _ & _ & Hold & -> & Hid & Hc & Hu & _).
  pose proof (first_by_id_some _ _ _ Hold) as [_ Hold_id].
  assert (Hb : DB.id b = box_id) by congruence.
  unfold get_box. cbn [rows next_id].
  split; [| split; [exact Hb | split; [| split; [exact Hu |]]]].
  - rewrite find_map_replace, Hb, Z.eqb_refl, Hold. reflexivity.
  - intro old'. rewrite Hold. now intros [= <-].
  - split; [apply replace_row_ids |]. split; [reflexivity |].
    intros other Hne. rewrite find_map_replace, Hb.
    destruct (Z.eqb_spec other box_id); [contradiction | reflexivity].
Qed.

Lemma update_then_get_witness :
  get_box
    (mkStore
       [DB.mkBoxDB 1 "AA:BB:CC:DD:EE:FF" None None None "LITHO" None (Some "")
          100 300] 2) 1
  = Ok (DB.mkBoxDB 1 "AA:BB:CC:DD:EE:FF" None None None "LITHO" None (Some "")
          100 300).
Proof.
  apply (update_then_get store_one _ 1 sample_update 300). reflexivity.
Defined.

(** ** The IP pattern *)

Lemma digit_group_1 (a : ascii) :
  is_digit a = true -> digit_group (String a "").
Proof.
  intro Ha. split; [simpl; lia |].
  intros [| i] c; simpl; intro H;
    first [discriminate H | injection H as <-; assumption].
Qed.

Lemma digit_group_2 (a b : ascii) :
  is_digit a = true -> is_digit b = true -> digit_group (String a (String b "")).
Proof.
  intros Ha Hb. split; [simpl; lia |].
  intros [| [| i]] c; simpl; intro H;
    first [discriminate H | injection H as <-; assumption].
Qed.

Lemma digit_group_3 (a b c : ascii) :
  is_digit a = true -> is_digit b = true -> is_digit c = true ->
  digit_group (String a (String b (String c ""))).
Proof.
  intros Ha Hb Hc. split; [simpl; lia |].
  intros [| [| [| i]]] x; simpl; intro H;
    first [discriminate H | injection H as <-; assumption].
Qed.

Lemma digit_group_cases (g : string) :
  digit_group g ->
  (exists a, g = String a "" /\ is_digit a = true)
  \/ (exists a b, g = String a (String b "")
                  /\ is_digit a = true /\ is_digit b = true)
  \/ (exists a b c, g = String a (String b (String c ""))
                    /\ is_digit a = true /\ is_digit b = true
                    /\ is_digit c = true).
Proof.
  intros [Hlen Hall].
  destruct g as [| a [| b [| c [| d t]]]]; simpl in Hlen; try lia.
  - left. exists a. split; [reflexivity | exact (Hall 0%nat a eq_refl)].
  - right. left. exists a, b. split; [reflexivity |].
    split; [exact (Hall 0%nat a eq_refl) | exact (Hall 1%nat b eq_refl)].
  - right. right. exists a, b, c. split; [reflexivity |].
    split; [exact (Hall 0%nat a eq_refl) |].
    split; [exact (Hall 1%nat b eq_refl) | exact (Hall 2%nat c eq_refl)].
Qed.

(** What [match_digits] consumes is a group of one to three digits. *)
Lemma match_digits_some (s r : string) :
  match_digits s = Some r ->
  exists g, digit_group g /\ s = (g ++ r)%string.
Proof.
  unfold match_digits.
  destruct s as [| a r1]; [discriminate |].
  destruct (is_digit a) eqn:Ha; [| discriminate].
  destruct r1 as [| b r2].
  { intros [= <-]. exists (String a ""). split; [now apply digit_group_1 |].
    reflexivity. }
  destruct (is_digit b) eqn:Hb.
  2:{ intros [= <-]. exists (String a ""). split; [now apply digit_group_1 |].
      reflexivity. }
  destruct r2 as [| c r3].
  { intros [= <-]. exists (String a (String b "")).
    split; [now apply digit_group_2 | reflexivity]. }
  destruct (is_digit c) eqn:Hc; intros [= <-].
  - exists (String a (String b (String c ""))).
    split; [now apply digit_group_3 | reflexivity].
  - exists (String a (String b "")).
    split; [now apply digit_group_2 | reflexivity].
Qed.

(** The subject does not go on with a digit. *)
Definition no_digit_ahead (r : string) : Prop :=
  match r with
  | EmptyString => True
  | String c _ => is_digit c = false
  end.

Lemma match_digits_group (g r : string) :
  digit_group g -> no_digit_ahead r -> match_digits (g ++ r)%string = Some r.
Proof.
  intros Hg Hr. apply digit_group_cases in Hg.
  destruct Hg as [(a & -> & Ha) | [(a & b & -> & Ha & Hb)
                                  | (a & b & c & -> & Ha & Hb & Hc)]];
    simpl; rewrite ?Ha, ?Hb, ?Hc; try reflexivity.
  - destruct r as [| x t]; [reflexivity |]. simpl in Hr. now rewrite Hr.
  - destruct r as [| x t]; [reflexivity |]. simpl in Hr. now rewrite Hr.
Qed.

Lemma dot_not_digit : is_digit "." = false.
Proof. reflexivity. Qed.

Lemma newline_not_digit : is_digit newline = false.
Proof. reflexivity. Qed.

Lemma append_nil_r (s : string) : (s ++ "")%string = s.
Proof. induction s as [| c s IH]; simpl; [reflexivity | now rewrite IH]. Qed.

Lemma match_digits_dot_step (n : nat) (g r : string) :
  digit_group g ->
  match_digits_dot (S n) (g ++ String "." r)%string = match_digits_dot n r.
Proof.
  intro Hg. cbn [match_digits_dot].
  rewrite match_digits_group; [reflexivity | exact Hg | exact dot_not_digit].
Qed.

Lemma match_digits_dot_some (n : nat) (s r : string) :
  match_digits_dot (S n) s = Some r ->
  exists g t, digit_group g /\ s = (g ++ String "." t)%string
              /\ match_digits_dot n t = Some r.
Proof.
  cbn [match_digits_dot].
  destruct (match_digits s) as [[| d t] |] eqn:E; try discriminate.
  destruct (Ascii.eqb_spec d ".") as [-> | _]; [| discriminate].
  intro H. apply match_digits_some in E. destruct E as (g & Hg & ->).
  now exists g, t.
Qed.

(** The pattern accepts four dot-separated groups of one to three digits,
    and that followed by one line feed, and nothing else. *)
Lemma re_match_ip_spec (v : string) :
  re_match_ip v = true <->
  ip_shape v \/ exists w, ip_shape w /\ v = (w ++ String newline "")%string.
Proof.
  unfold re_match_ip, ip_shape. split.
  - destruct (match_digits_dot 3 v) as [r |] eqn:E; [| discriminate].
    apply match_digits_dot_some in E. destruct E as (a & t1 & Ha & -> & E).
    apply match_digits_dot_some in E. destruct E as (b & t2 & Hb & -> & E).
    apply match_digits_dot_some in E. destruct E as (c & t3 & Hc & -> & E).
    injection E as ->.
    destruct (match_digits r) as [r' |] eqn:D; [| discriminate].
    apply match_digits_some in D. destruct D as (d & Hd & ->).
    intro Hend. apply at_end_cases in Hend. destruct Hend as [-> | ->].
    + left. exists a, b, c, d. rewrite append_nil_r.
      repeat (split; [assumption |]). reflexivity.
    + right. exists (a ++ "." ++ b ++ "." ++ c ++ "." ++ d)%string.
      split; [exists a, b, c, d; repeat (split; [assumption |]); reflexivity |].
      cbn [append]. rewrite !append_assoc. cbn [append].
      rewrite !append_assoc. cbn [append]. now rewrite !append_assoc.
  - intros [(a & b & c & d & Ha & Hb & Hc & Hd & ->)
           | (w & (a & b & c & d & Ha & Hb & Hc & Hd & ->) & ->)].
    + cbn [append]. rewrite !match_digits_dot_step by assumption.
      cbn [match_digits_dot].
      rewrite <- (append_nil_r d) at 1.
      rewrite match_digits_group; [reflexivity | exact Hd | exact I].
    + cbn [append]. rewrite !append_assoc. cbn [append].
      rewrite !append_assoc. cbn [append]. rewrite !append_assoc.
      cbn [append]. rewrite !match_digits_dot_step by assumption.
      cbn [match_digits_dot].
      rewrite match_digits_group;
        [reflexivity | exact Hd | exact newline_not_digit].
Qed.

(** X6: among ASCII strings that do not end in a line feed,
    [validate_ip] accepts exactly those made of four groups of one to three
    decimal digits with dots in between, whatever the value of a group, and
    returns them unchanged; any other such string fails with InvalidFormat;
    an address that is absent is accepted as absent. *)
Theorem validate_ip_accepts (v : string) :
  is_ascii_text v = true ->
  ends_with_newline v = false ->
  (BoxBase.validate_ip (Some v) = Ok (Some v) <-> ip_shape v)
  /\ (BoxBase.validate_ip (Some v) = Err InvalidFormat <-> ~ ip_shape v)
  /\ (forall r, BoxBase.validate_ip (Some v) = Ok r -> r = Some v)
  /\ BoxBase.validate_ip None = Ok None.
Proof.
  intros _ Hnl.
  assert (Hiff : re_match_ip v = true <-> ip_shape v).
  { rewrite re_match_ip_spec. split; [| now left].
    intros [H | (w & _ & ->)]; [exact H |].
    rewrite ends_with_newline_append in Hnl. discriminate Hnl. }
  unfold BoxBase.validate_ip.
  destruct (re_match_ip v) eqn:E; simpl.
  - split; [split; [intros _; now apply Hiff | reflexivity] |].
    split; [split; [discriminate | intro H; contradiction H; now apply Hiff] |].
    split; [now intros r [= <-] | reflexivity].
  - assert (Hno : ~ ip_shape v) by (intro H; apply Hiff in H; discriminate H).
    split; [split; [discriminate | intro H; contradiction] |].
    split; [split; [intros _; exact Hno | reflexivity] |].
    split; [discriminate | reflexivity].
Qed.

Lemma validate_ip_accepts_witness :
  BoxBase.validate_ip (Some "999.999.999.999") = Ok (Some "999.999.999.999")
  <-> ip_shape "999.999.999.999".
Proof.
  apply (validate_ip_accepts "999.999.999.999"); reflexivity.
Defined.

(** ** Validation: the update model, and validating twice *)

Lemma validate_mac_fixed (v s : string) :
  BoxBase.validate_mac v = Ok s -> BoxBase.validate_mac s = Ok s.
Proof.
  intro H. apply validate_mac_ok in H. destruct H as (Ht & Hm & ->).
  apply validate_mac_ok.
  now rewrite truthy_upper, re_match_mac_upper, upper_idempotent.
Qed.

Lemma update_validate_mac_agrees (m : string) :
  Update.validate_mac (Some m)
  = match BoxBase.validate_mac m with
    | Ok s => Ok (Some s)
    | Err e => Err e
    end.
Proof.
  unfold Update.validate_mac, BoxBase.validate_mac.
  destruct (negb (truthy m)); [reflexivity |].
  now destruct (negb (re_match_mac m)).
Qed.

(** X7: validation of an update payload looks at [mac_address] only.  It
    fails exactly when an address is provided as a string that the create
    validator refuses, with that validator's error and no other; when it
    succeeds the address and the process are uppercased and every other
    field, [ip_address] included, is passed on as provided, whatever it
    holds. *)
Theorem update_parse_outcomes (body : Update.BoxUpdate) :
  (forall errs,
     Update.parse body = Err errs <->
     exists m e, Update.mac_address body = Provided (Some m)
                 /\ BoxBase.validate_mac m = Err e
                 /\ errs = [(F_mac_address, e)])
  /\ (forall u,
        Update.parse body = Ok u <->
        (forall m, Update.mac_address body = Provided (Some m) ->
                   BoxBase.validate_mac m = Ok (upper m))
        /\ u = Update.mkBoxUpdate
                 (uppercased (Update.mac_address body))
                 (Update.ip_address body) (Update.main_equipment body)
                 (Update.location body)
                 (uppercased (Update.process body))
                 (Update.manager body) (Update.note body)).
Proof.
  unfold Update.parse.
  assert (Hproc : match Update.process body with
                  | Unset => Unset
                  | Provided v => Provided (Update.validate_process v)
                  end = uppercased (Update.process body)).
  { destruct (Update.process body) as [| [[| c r] |]]; reflexivity. }
  rewrite Hproc.
  destruct (Update.mac_address body) as [| [m |]] eqn:Hmac.
  - split.
    + intro errs. split; [discriminate | intros (m & e & H & _); discriminate H].
    + intro u. split.
      * intros [= <-]. split; [discriminate | reflexivity].
      * intros [_ ->]. reflexivity.
  - rewrite update_validate_mac_agrees.
    destruct (BoxBase.validate_mac m) as [s | e] eqn:V.
    + apply validate_mac_ok in V. destruct V as (Ht & Hm & ->). split.
      * intro errs. split; [discriminate |].
        intros (m' & e & [= <-] & He & _).
        rewrite (proj2 (validate_mac_ok m (upper m))) in He by now repeat split.
        discriminate He.
      * intro u. split.
        -- intros [= <-]. split; [| reflexivity].
           intros m' [= <-]. apply validate_mac_ok. now repeat split.
        -- intros [_ ->]. reflexivity.
    + split.
      * intro errs. simpl. split.
        -- intros [= <-]. now exists m, e.
        -- intros (m' & e' & [= <-] & He & ->). congruence.
      * intro u. split; [discriminate |].
        intros [H _]. specialize (H m eq_refl). congruence.
  - split.
    + intro errs. split; [discriminate | intros (m & e & H & _); discriminate H].
    + intro u. split.
      * intros [= <-]. split; [discriminate | reflexivity].
      * intros [_ ->]. reflexivity.
Qed.

Lemma validate_process_fixed (p : string) :
  BoxBase.validate_process (BoxBase.validate_process p)
  = BoxBase.validate_process p.
Proof. rewrite !validate_process_upper. apply upper_idempotent. Qed.

(** X8: validation is a projection: a record that came out of the create
    validators, submitted again as it is, passes them and comes out
    unchanged. *)
Theorem parse_BoxCreate_fixed (body : Body.CreateRequest)
  (box : Create.BoxCreate) :
  parse_BoxCreate body = Ok box ->
  parse_BoxCreate (body_of box) = Ok box.
Proof.
  intro H. apply parse_BoxCreate_ok in H.
  destruct H as (m & p & _ & Hm & _ & Hp & Hi).
  unfold parse_BoxCreate, body_of. cbn [Body.mac_address Body.ip_address
    Body.process Body.main_equipment Body.location Body.manager Body.note].
  rewrite (validate_mac_fixed _ _ Hm).
  assert (Hi' : BoxBase.validate_ip (Create.ip_address box)
                = Ok (Create.ip_address box)).
  { revert Hi. unfold BoxBase.validate_ip.
    destruct (Body.ip_address body) as [s |]; [| now intros [= <-]].
    destruct (re_match_ip s) eqn:E; simpl; [| discriminate].
    intros [= <-]. now rewrite E. }
  assert (Hp' : BoxBase.validate_process (Create.process box)
                = Create.process box)
    by (rewrite Hp; apply validate_process_fixed).
  rewrite Hi', Hp'. now destruct box.
Qed.

Lemma parse_BoxCreate_fixed_witness :
  parse_BoxCreate
    (body_of (Create.mkBoxCreate "AA-BB-CC-DD-EE-FF" (Some "10.0.0.999") None
                None "ETCH" None None))
  = Ok (Create.mkBoxCreate "AA-BB-CC-DD-EE-FF" (Some "10.0.0.999") None None
          "ETCH" None None).
Proof.
  apply (parse_BoxCreate_fixed
           (Body.mkCreateRequest (Some "aa-bb-cc-dd-ee-ff") (Some "10.0.0.999")
              None None (Some "etch") None None)).
  reflexivity.
Defined.

(** ** Invariants of the table over any sequence of requests *)

Lemma store_eta (st : Store) : mkStore (rows st) (next_id st) = st.
Proof. now destruct st. Qed.

Lemma delete_box_ok (st st' : Store) (box_id : Z) :
  delete_box st box_id = Ok st' ->
  exists b, In b (rows st) /\ DB.id b = box_id
            /\ st' = mkStore (filter (fun r => negb (DB.id r =? box_id)) (rows st))
                       (next_id st).
Proof.
  unfold delete_box.
  destruct (first_by_id (rows st) box_id) as [b |] eqn:F; [| discriminate].
  apply first_by_id_some in F. destruct F as [Hb Hid].
  intros [= <-]. exists b. rewrite Hid. now repeat split.
Qed.

Lemma normalize_loop_keys (utcnow : Z -> Z) (boxes : list BoxDB) (k : Z) :
  map DB.id (fst (normalize_loop utcnow boxes k)) = map DB.id boxes
  /\ map DB.mac_address (fst (normalize_loop utcnow boxes k))
     = map DB.mac_address boxes.
Proof.
  revert k. induction boxes as [| box rest IH]; intro k; [now split |].
  rewrite normalize_loop_cons.
  destruct (needs_upper box); cbn [fst map];
    [destruct (IH (k + 1)) as [-> ->] | destruct (IH k) as [-> ->]];
    now split.
Qed.

Lemma normalize_processes_rows (st : Store) (utcnow : Z -> Z) :
  fst (normalize_processes st utcnow)
  = mkStore (fst (normalize_loop utcnow (rows st) 0)) (next_id st).
Proof.
  unfold normalize_processes.
  now destruct (normalize_loop utcnow (rows st) 0).
Qed.

Lemma Forall_replace_row (P : BoxDB -> Prop) (rs : list BoxDB) (b : BoxDB) :
  Forall P rs -> P b -> Forall P (replace_row rs b).
Proof.
  intros Hrs Hb. unfold replace_row. apply Forall_map.
  eapply Forall_impl; [| exact Hrs]. intros r Hr.
  now destruct (DB.id r =? DB.id b).
Qed.

Lemma handle_well_formed (st : Store) (r : Request) :
  well_formed st -> well_formed (handle st r).
Proof.
  intro Hwf. destruct r as [body now_c now_u | box_id body now | box_id | utcnow];
    cbn [handle].
  - destruct (post_boxes st body now_c now_u) as [[st' b] |] eqn:H;
      [| exact Hwf].
    apply post_boxes_ok in H. destruct H as (box & _ & _ & H & _).
    exact (create_box_well_formed _ _ _ _ _ _ Hwf H).
  - destruct (put_boxes st box_id body now) as [[st' b] |] eqn:H;
      [| exact Hwf].
    apply put_boxes_ok in H. destruct H as (u & old & _ & H & _).
    exact (update_box_well_formed _ _ _ _ _ _ Hwf H).
  - destruct (delete_box st box_id) as [st' |] eqn:H; [| exact Hwf].
    apply delete_box_ok in H. destruct H as (b & _ & _ & ->).
    destruct Hwf as (Hids & Hmacs & Hlt). unfold well_formed. cbn [rows next_id].
    split; [now apply NoDup_map_filter |].
    split; [now apply NoDup_map_filter |].
    rewrite Forall_forall in *. intros x Hx. apply filter_In in Hx.
    now apply Hlt.
  - rewrite normalize_processes_rows.
    destruct Hwf as (Hids & Hmacs & Hlt). unfold well_formed. cbn [rows next_id].
    destruct (normalize_loop_keys utcnow (rows st) 0) as [Hi Hm].
    rewrite Hi, Hm. split; [exact Hids |]. split; [exact Hmacs |].
    apply Forall_map with (f := DB.id) (P := fun i => i < next_id st).
    rewrite Hi. now apply Forall_map.
Qed.

Lemma parse_update_normal (body u : Update.BoxUpdate) :
  Update.parse body = Ok u ->
  (forall m, Update.mac_address u = Provided (Some m) ->
             BoxBase.validate_mac m = Ok m)
  /\ (forall p, Update.process u = Provided (Some p) -> p = upper p).
Proof.
  intro H. pose proof (parse_update_ok _ _ H) as (Hm & Hp & _).
  split.
  - intros m Hu. rewrite Hm in Hu.
    destruct (Update.mac_address body) as [| [m0 |]] eqn:Hb;
      simpl in Hu; try discriminate. injection Hu as <-.
    revert H. unfold Update.parse. rewrite Hb, update_validate_mac_agrees.
    destruct (BoxBase.validate_mac m0) as [s |] eqn:V; [| discriminate].
    intros _. pose proof (validate_mac_fixed _ _ V) as Hs.
    apply validate_mac_ok in V. destruct V as (_ & _ & ->). exact Hs.
  - intros p Hu. rewrite Hp in Hu.
    destruct (Update.process body) as [| [p0 |]]; simpl in Hu;
      try discriminate.
    injection Hu as <-. symmetry. apply upper_idempotent.
Qed.

Lemma handle_normalized (st : Store) (r : Request) :
  normalized st -> normalized (handle st r).
Proof.
  unfold normalized. intro Hn.
  destruct r as [body now_c now_u | box_id body now | box_id | utcnow];
    cbn [handle].
  - destruct (post_boxes st body now_c now_u) as [[st' b] |] eqn:H;
      [| exact Hn].
    apply post_boxes_ok in H. destruct H as (box & Hparse & _ & _ & -> & ->).
    cbn [store_after rows]. apply Forall_app. split; [exact Hn |].
    constructor; [| constructor]. cbn [DB.mac_address DB.process].
    apply parse_BoxCreate_ok in Hparse.
    destruct Hparse as (m & p & _ & Hm & _ & Hp & _).
    split; [exact (validate_mac_fixed _ _ Hm) |].
    rewrite Hp, validate_process_upper. symmetry. apply upper_idempotent.
  - destruct (put_boxes st box_id body now) as [[st' b] |] eqn:H;
      [| exact Hn].
    apply put_boxes_ok in H.
    destruct H as (u & old & Hparse & _ & Hold & -> & _ & _ & _ & _ & Em & Ep).
    cbn [store_after rows]. apply Forall_replace_row; [exact Hn |].
    apply first_by_id_some in Hold. destruct Hold as [Hold _].
    rewrite Forall_forall in Hn. destruct (Hn old Hold) as [Hom Hop].
    destruct (parse_update_normal _ _ Hparse) as [Hum Hup].
    split.
    + destruct (Update.mac_address u) as [| [m |]]; simpl in Em;
        try discriminate; injection Em as <-; [exact Hom | now apply Hum].
    + destruct (Update.process u) as [| [p |]]; simpl in Ep;
        try discriminate; injection Ep as <-; [exact Hop | now apply Hup].
  - destruct (delete_box st box_id) as [st' |] eqn:H; [| exact Hn].
    apply delete_box_ok in H. destruct H as (b & _ & _ & ->). cbn [rows].
    rewrite Forall_forall in *. intros x Hx. apply filter_In in Hx.
    now apply Hn.
  - rewrite normalize_processes_rows. cbn [rows].
    destruct (normalize_loop_keys utcnow (rows st) 0) as [_ Hm].
    pose proof (normalize_loop_normal utcnow (rows st) 0) as Hnormal.
    assert (Hmacs : Forall (fun m => BoxBase.validate_mac m = Ok m)
                      (map DB.mac_address
                         (fst (normalize_loop utcnow (rows st) 0)))).
    { rewrite Hm. apply Forall_map. eapply Forall_impl; [| exact Hn].
      now intros x [Hx _]. }
    apply Forall_map in Hmacs. rewrite Forall_forall in *.
    intros x Hx. split; [now apply Hmacs |].
    specialize (Hnormal x Hx). unfold needs_upper in Hnormal.
    apply negb_false_iff in Hnormal. now apply String.eqb_eq in Hnormal.
Qed.

Lemma run_invariant (P : Store -> Prop) (st : Store) (requests : list Request) :
  (forall s r, P s -> P (handle s r)) -> P st -> P (run st requests).
Proof.
  intros Hstep. revert st. unfold run.
  induction requests as [| r requests IH]; intros st Hst; simpl.
  - exact Hst.
  - apply IH. now apply Hstep.
Qed.

(** X9: whatever requests are served, in whatever order, starting from the
    empty table: ids stay unique and below the counter, no two boxes share
    an address, every stored address is an accepted address in its
    uppercase normal form, and every stored process is uppercase. *)
Theorem reachable_store_invariant (requests : list Request) :
  well_formed (run empty_store requests)
  /\ normalized (run empty_store requests).
Proof.
  split.
  - apply run_invariant; [intros s r; apply handle_well_formed |].
    apply empty_store_well_formed.
  - apply run_invariant; [intros s r; apply handle_normalized |].
    constructor.
Qed.

(** X10: on a table that only ever held validated data, the maintenance
    run has nothing to do: it reports zero and leaves the table as it is. *)
Theorem normalize_reachable_noop (requests : list Request) (utcnow : Z -> Z) :
  normalize_processes (run empty_store requests) utcnow
  = (run empty_store requests, 0).
Proof.
  assert (Hn : normalized (run empty_store requests))
    by (apply run_invariant; [intros s r; apply handle_normalized |];
        constructor).
  unfold normalize_processes.
  rewrite normalize_loop_fixed.
  - now rewrite store_eta.
  - eapply Forall_impl; [| exact Hn]. intros b [_ Hb].
    unfold needs_upper. rewrite <- Hb. now rewrite String.eqb_refl.
Qed.

(** ** The order on strings and [sorted] *)

Lemma ascii_compare_lt_trans (a b c : ascii) :
  Ascii.compare a b = Lt -> Ascii.compare b c = Lt -> Ascii.compare a c = Lt.
Proof.
  unfold Ascii.compare. rewrite !N.compare_lt_iff. apply N.lt_trans.
Qed.

Lemma compare_lt_trans (a b c : string) :
  String.compare a b = Lt -> String.compare b c = Lt -> String.compare a c = Lt.
Proof.
  revert b c. induction a as [| x a IH]; intros [| y b] [| z c]; simpl;
    try discriminate; try reflexivity.
  destruct (Ascii.compare x y) eqn:Exy; try discriminate;
    destruct (Ascii.compare y z) eqn:Eyz; try discriminate.
  - apply Ascii.compare_eq_iff in Exy, Eyz. subst.
    replace (Ascii.compare z z) with Eq
      by (symmetry; unfold Ascii.compare; apply N.compare_refl).
    apply IH.
  - apply Ascii.compare_eq_iff in Exy. subst. now rewrite Eyz.
  - apply Ascii.compare_eq_iff in Eyz. subst. now rewrite Exy.
  - now rewrite (ascii_compare_lt_trans _ _ _ Exy Eyz).
Qed.

Lemma compare_refl (a : string) : String.compare a a = Eq.
Proof.
  induction a as [| x a IH]; simpl; [reflexivity |].
  replace (Ascii.compare x x) with Eq
    by (symmetry; unfold Ascii.compare; apply N.compare_refl).
  exact IH.
Qed.

Lemma leb_cases (a b : string) :
  String.leb a b = true <-> a = b \/ String.ltb a b = true.
Proof.
  unfold String.leb, String.ltb.
  destruct (String.compare a b) eqn:E.
  - apply String.compare_eq_iff in E. tauto.
  - tauto.
  - split; [discriminate |]. intros [-> | H]; [| discriminate H].
    rewrite compare_refl in E. discriminate E.
Qed.

Lemma ltb_trans (a b c : string) :
  String.ltb a b = true -> String.ltb b c = true -> String.ltb a c = true.
Proof.
  unfold String.ltb.
  destruct (String.compare a b) eqn:Eab; try discriminate.
  destruct (String.compare b c) eqn:Ebc; try discriminate.
  now rewrite (compare_lt_trans _ _ _ Eab Ebc).
Qed.

Lemma leb_trans (a b c : string) :
  String.leb a b = true -> String.leb b c = true -> String.leb a c = true.
Proof.
  rewrite !leb_cases. intros [-> | Hab] [-> | Hbc]; auto.
  right. now apply (ltb_trans a b c).
Qed.

Lemma ltb_irrefl (a : string) : String.ltb a a = false.
Proof. unfold String.ltb. now rewrite compare_refl. Qed.

Definition ascending (a b : string) : Prop := String.leb a b = true.

Definition strictly_ascending (a b : string) : Prop := String.ltb a b = true.

Lemma insert_sorted_perm (x : string) (l : list string) :
  Permutation (insert_sorted x l) (x :: l).
Proof.
  induction l as [| y r IH]; simpl; [apply Permutation_refl |].
  destruct (String.leb x y); [apply Permutation_refl |].
  eapply perm_trans; [apply perm_skip, IH | apply perm_swap].
Qed.

Lemma insert_sorted_ascending (x : string) (l : list string) :
  StronglySorted ascending l -> StronglySorted ascending (insert_sorted x l).
Proof.
  induction 1 as [| y r Hs IH Hall]; simpl; [repeat constructor |].
  destruct (String.leb x y) eqn:E.
  - constructor; [now constructor |].
    constructor; [exact E |].
    eapply Forall_impl; [| exact Hall]. intros z Hz.
    now apply (leb_trans x y z).
  - constructor; [exact IH |].
    eapply Permutation_Forall; [apply Permutation_sym, insert_sorted_perm |].
    constructor; [| exact Hall].
    destruct (String.leb_total x y) as [H | H]; [congruence | exact H].
Qed.

Lemma sorted_perm (l : list string) : Permutation (sorted l) l.
Proof.
  induction l as [| x l IH]; simpl; [constructor |].
  eapply perm_trans; [apply insert_sorted_perm | now apply perm_skip].
Qed.

Lemma sorted_ascending (l : list string) : StronglySorted ascending (sorted l).
Proof.
  induction l as [| x l IH]; simpl; [constructor |].
  now apply insert_sorted_ascending.
Qed.

Lemma ascending_strict (l : list string) :
  StronglySorted ascending l -> NoDup l -> StronglySorted strictly_ascending l.
Proof.
  induction 1 as [| x l Hs IH Hall]; intro Hnd; [constructor |].
  inversion Hnd as [| ? ? Hnotin Hnd']; subst.
  constructor; [now apply IH |].
  rewrite Forall_forall in *. intros y Hy.
  destruct (proj1 (leb_cases x y) (Hall y Hy)) as [-> | H];
    [contradiction | exact H].
Qed.

(** A strictly ascending list is determined by its elements. *)
Lemma strictly_ascending_unique (l1 l2 : list string) :
  StronglySorted strictly_ascending l1 ->
  StronglySorted strictly_ascending l2 ->
  (forall x, In x l1 <-> In x l2) -> l1 = l2.
Proof.
  intro H1. revert l2.
  induction H1 as [| a l1 Hs1 IH Hall1]; intros l2 H2 Hsame.
  - destruct l2 as [| b l2]; [reflexivity |].
    exfalso. apply (proj2 (Hsame b)). now left.
  - destruct H2 as [| b l2 Hs2 Hall2].
    + exfalso. apply (proj1 (Hsame a)). now left.
    + rewrite Forall_forall in Hall1, Hall2.
      unfold strictly_ascending in Hall1, Hall2.
      assert (Hab : a = b).
      { destruct (proj1 (Hsame a) (or_introl eq_refl)) as [Hb | Ha2];
          [now symmetry |].
        destruct (proj2 (Hsame b) (or_introl eq_refl)) as [Ha | Hb1];
          [exact Ha |].
        exfalso. pose proof (ltb_trans _ _ _ (Hall1 b Hb1) (Hall2 a Ha2)) as H.
        rewrite ltb_irrefl in H. discriminate H. }
      subst b. f_equal. apply IH; [exact Hs2 |].
      intro x. split; intro Hx.
      * destruct (proj1 (Hsame x) (or_intror Hx)) as [-> | H]; [| exact H].
        apply Hall1 in Hx. rewrite ltb_irrefl in Hx. discriminate Hx.
      * destruct (proj2 (Hsame x) (or_intror Hx)) as [-> | H]; [| exact H].
        apply Hall2 in Hx. rewrite ltb_irrefl in Hx. discriminate Hx.
Qed.

(** ** Process names *)

Lemma mem_In (x : string) (l : list string) : mem x l = true <-> In x l.
Proof.
  unfold mem. rewrite existsb_exists. split.
  - intros (y & Hy & E). apply String.eqb_eq in E. now subst.
  - intro H. exists x. split; [exact H | apply String.eqb_refl].
Qed.

(** The uppercase names that the loop produces from a list of rows. *)
Definition named (processes : list string) (x : string) : Prop :=
  exists p, In p processes /\ p <> "" /\ upper p = x.

Lemma truthy_nonempty (p : string) : truthy p = true <-> p <> "".
Proof. destruct p; simpl; split; congruence. Qed.

Lemma unique_upper_spec (processes seen unique_processes : list string) :
  (forall x, In x seen <-> In x unique_processes) ->
  NoDup unique_processes ->
  NoDup (unique_upper processes seen unique_processes)
  /\ forall x, In x (unique_upper processes seen unique_processes)
               <-> In x unique_processes \/ named processes x.
Proof.
  revert seen unique_processes.
  induction processes as [| p rest IH]; intros seen uniq Hseen Hnd; simpl.
  - split; [exact Hnd |]. intro x. split; [now left |].
    intros [H | (p & [] & _)]. exact H.
  - assert (Hskip : forall x, named (p :: rest) x <-> named rest x
                                                      \/ (p <> "" /\ upper p = x)).
    { intro x. unfold named. split.
      - intros (q & [<- | Hq] & Hne & Hx); [now right | left; now exists q].
      - intros [(q & Hq & Hne & Hx) | [Hne Hx]];
          [exists q | exists p]; simpl; tauto. }
    destruct (truthy p) eqn:Ht.
    + apply truthy_nonempty in Ht.
      destruct (mem (upper p) seen) eqn:Hm; simpl.
      * apply mem_In in Hm. apply Hseen in Hm.
        destruct (IH seen uniq Hseen Hnd) as [Hnd' Hin]. split; [exact Hnd' |].
        intro x. rewrite Hin, Hskip. split; [tauto |].
        intros [H | [H | [_ <-]]]; tauto.
      * assert (Hfresh : ~ In (upper p) uniq).
        { intro H. apply Hseen, mem_In in H. congruence. }
        destruct (IH (upper p :: seen) (uniq ++ [upper p])) as [Hnd' Hin].
        -- intro x. simpl. rewrite in_app_iff, Hseen. simpl. tauto.
        -- apply NoDup_snoc; assumption.
        -- split; [exact Hnd' |]. intro x.
           rewrite Hin, Hskip, in_app_iff. simpl. split.
           ++ intros [[H | [<- | []]] | H]; tauto.
           ++ intros [H | [H | [_ <-]]]; tauto.
    + assert (Hempty : p = "") by (destruct p; [reflexivity | discriminate]).
      destruct (IH seen uniq Hseen Hnd) as [Hnd' Hin]. split; [exact Hnd' |].
      intro x. rewrite Hin, Hskip. split; [tauto |].
      intros [H | [H | [Hne _]]]; tauto.
Qed.

Lemma get_processes_of_spec (processes : list string) :
  StronglySorted strictly_ascending (get_processes_of processes)
  /\ forall x, In x (get_processes_of processes) <-> named processes x.
Proof.
  unfold get_processes_of.
  destruct (unique_upper_spec processes [] []) as [Hnd Hin];
    [tauto | constructor |].
  split.
  - apply ascending_strict; [apply sorted_ascending |].
    eapply Permutation_NoDup; [apply Permutation_sym, sorted_perm | exact Hnd].
  - intro x. split.
    + intro H. apply (Permutation_in _ (sorted_perm _)) in H.
      apply Hin in H. destruct H as [[] | H]. exact H.
    + intro H. apply (Permutation_in _ (Permutation_sym (sorted_perm _))).
      apply Hin. now right.
Qed.

Lemma get_processes_of_ext (ps qs : list string) :
  (forall x, named ps x <-> named qs x) ->
  get_processes_of ps = get_processes_of qs.
Proof.
  intro H.
  destruct (get_processes_of_spec ps) as [Hs1 Hin1].
  destruct (get_processes_of_spec qs) as [Hs2 Hin2].
  apply strictly_ascending_unique; [exact Hs1 | exact Hs2 |].
  intro x. now rewrite Hin1, Hin2.
Qed.

Lemma named_distinct (rs : list BoxDB) (x : string) :
  named (distinct_processes rs) x
  <-> exists b, In b rs /\ DB.process b <> "" /\ upper (DB.process b) = x.
Proof.
  unfold named, distinct_processes. split.
  - intros (p & Hp & Hne & Hx). apply nodup_In, in_map_iff in Hp.
    destruct Hp as (b & <- & Hb). now exists b.
  - intros (b & Hb & Hne & Hx). exists (DB.process b).
    split; [| now split]. apply nodup_In. now apply in_map.
Qed.

(** X12: [get_processes] returns the uppercase forms of the stored
    processes that are not empty, and nothing else, each once, in strictly
    ascending order; every name returned is its own uppercase form. *)
Theorem get_processes_sorted_unique (st : Store) :
  StronglySorted strictly_ascending (get_processes st)
  /\ NoDup (get_processes st)
  /\ (forall x,
        In x (get_processes st)
        <-> exists b, In b (rows st) /\ DB.process b <> ""
                      /\ upper (DB.process b) = x)
  /\ Forall (fun x => upper x = x) (get_processes st).
Proof.
  unfold get_processes.
  destruct (get_processes_of_spec (distinct_processes (rows st))) as [Hs Hin].
  assert (Hin' : forall x,
             In x (get_processes_of (distinct_processes (rows st)))
             <-> exists b, In b (rows st) /\ DB.process b <> ""
                           /\ upper (DB.process b) = x)
    by (intro x; now rewrite Hin, named_distinct).
  split; [exact Hs |]. split; [| split; [exact Hin' |]].
  - clear Hin Hin'. induction Hs as [| a l Hs IH Hall]; constructor;
      [| exact IH].
    intro Ha. rewrite Forall_forall in Hall. apply Hall in Ha.
    unfold strictly_ascending in Ha. rewrite ltb_irrefl in Ha. discriminate Ha.
  - apply Forall_forall. intros x Hx. apply Hin' in Hx.
    destruct Hx as (b & _ & _ & <-). apply upper_idempotent.
Qed.

(** X13: the answer of [get_processes] does not depend on which rows the
    DISTINCT query returns for equal names nor on their order: any list
    with the same values as the process column gives the same answer, the
    column itself with its repetitions included. *)
Theorem get_processes_order_free (st : Store) (processes : list string) :
  (forall p, In p processes <-> In p (map DB.process (rows st))) ->
  get_processes_of processes = get_processes st.
Proof.
  intro H. unfold get_processes. apply get_processes_of_ext.
  intro x. unfold named, distinct_processes. split.
  - intros (p & Hp & Hrest). exists p. split; [| exact Hrest].
    apply nodup_In. now apply H.
  - intros (p & Hp & Hrest). exists p. split; [| exact Hrest].
    apply H. now apply nodup_In in Hp.
Qed.

Lemma get_processes_order_free_witness :
  get_processes_of ["Litho"; "ETCH"; "etch"; "Litho"]
  = get_processes store_legacy.
Proof.
  apply (get_processes_order_free store_legacy). intro p. simpl.
  intuition.
Defined.

Lemma Forall2_In_l {A B : Type} (R : A -> B -> Prop) (l1 : list A) (l2 : list B) (x : A) :
  Forall2 R l1 l2 -> In x l1 -> exists y, In y l2 /\ R x y.
Proof.
  induction 1 as [| a b l1 l2 Hab _ IH]; simpl; [contradiction |].
  intros [<- | Hx]; [exists b; tauto |].
  destruct (IH Hx) as (y & Hy & Hxy). exists y. tauto.
Qed.

Lemma Forall2_In_r {A B : Type} (R : A -> B -> Prop) (l1 : list A) (l2 : list B) (y : B) :
  Forall2 R l1 l2 -> In y l2 -> exists x, In x l1 /\ R x y.
Proof.
  induction 1 as [| a b l1 l2 Hab _ IH]; simpl; [contradiction |].
  intros [<- | Hy]; [exists a; tauto |].
  destruct (IH Hy) as (x & Hx & Hxy). exists x. tauto.
Qed.

Lemma rewritten_process (utcnow : Z -> Z) (lo n : Z) (old new : BoxDB) :
  rewritten utcnow lo n old new ->
  upper (DB.process new) = upper (DB.process old)
  /\ (DB.process new <> "" <-> DB.process old <> "").
Proof.
  unfold rewritten. destruct (needs_upper old).
  - intros (k & _ & ->). simpl. split; [apply upper_idempotent |].
    rewrite <- !truthy_nonempty. now rewrite truthy_upper.
  - intros ->. tauto.
Qed.

Lemma get_processes_In (st : Store) (x : string) :
  In x (get_processes st)
  <-> exists b, In b (rows st) /\ DB.process b <> ""
                /\ upper (DB.process b) = x.
Proof.
  unfold get_processes.
  rewrite (proj2 (get_processes_of_spec _)). apply named_distinct.
Qed.

(** X14: the maintenance run does not change what [get_processes] answers:
    the list of process names is the same before and after it. *)
Theorem normalize_keeps_processes (st : Store) (utcnow : Z -> Z) :
  get_processes (fst (normalize_processes st utcnow)) = get_processes st.
Proof.
  rewrite normalize_processes_rows. unfold get_processes.
  apply get_processes_of_ext. intro x. rewrite !named_distinct. cbn [rows].
  pose proof (normalize_loop_rows utcnow (rows st) 0) as Hrows.
  split.
  - intros (b & Hb & Hne & Hx).
    destruct (Forall2_In_r _ _ _ _ Hrows Hb) as (old & Hold & Hrel).
    apply rewritten_process in Hrel. destruct Hrel as [Hup Hnon].
    exists old. split; [exact Hold |]. split; [now apply Hnon | congruence].
  - intros (old & Hold & Hne & Hx).
    destruct (Forall2_In_l _ _ _ _ Hrows Hold) as (b & Hb & Hrel).
    apply rewritten_process in Hrel. destruct Hrel as [Hup Hnon].
    exists b. split; [exact Hb |]. split; [now apply Hnon | congruence].
Qed.

(** X15: after a box is created with a process that is not empty, the
    uppercase form of that process is among the names [get_processes]
    answers, and every name answered before is still answered. *)
Theorem create_then_processes (st st' : Store) (body : Body.CreateRequest)
  (now_c now_u : Z) (b : BoxDB) (p : string) :
  post_boxes st body now_c now_u = Ok (st', b) ->
  Body.process body = Some p ->
  p <> "" ->
  In (upper p) (get_processes st')
  /\ (forall x, In x (get_processes st) -> In x (get_processes st')).
Proof.
  intros H Hp Hne. apply post_boxes_ok in H.
  destruct H as (box & Hparse & _ & _ & -> & ->).
  apply parse_BoxCreate_ok in Hparse.
  destruct Hparse as (m & p' & _ & _ & Hp' & Hproc & _).
  rewrite Hp in Hp'. injection Hp' as <-.
  rewrite validate_process_upper in Hproc. split.
  - apply get_processes_In. eexists. cbn [rows].
    split; [apply in_or_app; right; left; reflexivity |].
    cbn [DB.process]. rewrite Hproc. split; [| apply upper_idempotent].
    rewrite <- truthy_nonempty, truthy_upper. now apply truthy_nonempty.
  - intros x Hx. apply get_processes_In in Hx. apply get_processes_In.
    destruct Hx as (r & Hr & Hrest). exists r. cbn [rows].
    split; [apply in_or_app; now left | exact Hrest].
Qed.

Lemma create_then_processes_witness :
  In (upper "etch") (get_processes store_one)
  /\ (forall x, In x (get_processes empty_store) ->
                In x (get_processes store_one)).
Proof.
  apply (create_then_processes empty_store store_one
           (sample_body "AA:BB:CC:DD:EE:FF" "etch") 100 100 box_one "etch").
  - reflexivity.
  - reflexivity.
  - discriminate.
Defined.

(** ** Pages *)

Section PageTheory.

Context {backend : Backend}.

(** X16: for a query within bounds, a page has items exactly when its
    number is at most [total_pages]; every page before the last is full,
    and the last holds what is left. *)
Theorem get_boxes_page_range (st : Store) (page page_size : Z)
  (search process : option string) :
  1 <= page -> 1 <= page_size <= 1000 ->
  exists r,
    get_boxes st (Some page) (Some page_size) search process = Ok r
    /\ (items r <> [] <-> page <= total_pages r)
    /\ (page < total_pages r -> Z.of_nat (List.length (items r)) = page_size)
    /\ (page = total_pages r ->
        Z.of_nat (List.length (items r))
        = total r - (page - 1) * page_size).
Proof.
  intros Hp Hs. eexists. split; [now apply get_boxes_ok |].
  cbn [total items total_pages].
  set (L := matching (page_select search process page page_size)
              st search process).
  assert (HL : List.length (filter (selects search process) (rows st))
               = List.length L) by (symmetry; apply matching_length).
  rewrite HL.
  pose proof (slice_length page page_size L Hp (proj1 Hs)) as Hlen.
  pose proof (ceil_div_bounds (Z.of_nat (List.length L)) page_size
                (Nat2Z.is_nonneg _) ltac:(lia)) as Hceil.
  set (T := Z.of_nat (List.length L)) in *.
  set (tp := (T + page_size - 1) / page_size) in *.
  set (I := firstn (Z.to_nat page_size)
              (skipn (Z.to_nat ((page - 1) * page_size)) L)) in *.
  assert (Hnonempty : I <> [] <-> 0 < Z.of_nat (List.length I)).
  { destruct I; simpl; split; intro H; try congruence; lia. }
  split; [| split].
  - rewrite Hnonempty, Hlen. split; intro H.
    + assert (page - 1 < tp) by nia. lia.
    + assert ((page - 1) * page_size <= (tp - 1) * page_size) by nia. lia.
  - intro H. rewrite Hlen.
    assert (page * page_size <= (tp - 1) * page_size) by nia. lia.
  - intro H. rewrite Hlen.
    assert ((page - 1) * page_size = (tp - 1) * page_size)
      by (f_equal; lia).
    assert (tp * page_size = (tp - 1) * page_size + page_size) by ring.
    lia.
Qed.

(** X17: on a table with unique ids no box is listed twice on a page;
    and when no two selected records have the same [created_at], no box is
    listed twice at all: the pages of a list query, one after the other,
    hold no box and no id more than once. *)
Theorem list_all_no_duplicates (st : Store) (page_size : Z)
  (search process : option string) :
  NoDup (map DB.id (rows st)) ->
  1 <= page_size <= 1000 ->
  (forall page,
     1 <= page ->
     NoDup (map DB.id
              (page_items
                 (get_boxes st (Some page) (Some page_size) search process))))
  /\ (NoDup (map DB.created_at (filter (selects search process) (rows st))) ->
      NoDup (list_all st page_size search process)
      /\ NoDup (map DB.id (list_all st page_size search process))).
Proof.
  intros Hids Hs.
  assert (H : forall q, NoDup (map DB.id (matching q st search process))).
  { intro q. eapply Permutation_NoDup.
    - apply Permutation_map, Permutation_sym, order_by_perm.
    - now apply NoDup_map_filter. }
  split.
  - intros page Hp. rewrite get_boxes_ok by lia. cbn [page_items items].
    rewrite <- firstn_map, <- skipn_map. apply NoDup_slice, H.
  - intro Hnd. rewrite list_all_matching by assumption.
    split; [apply (NoDup_map_inv DB.id), H | apply H].
Qed.

(** X18: the sheet has the header and then one row for every record that
    the list query with the same filters counts, and every row has as many
    cells as the header. *)
Theorem export_sheet_size (st : Store) (page page_size : Z)
  (search process : option string) :
  1 <= page -> 1 <= page_size <= 1000 ->
  exists r,
    get_boxes st (Some page) (Some page_size) search process = Ok r
    /\ Z.of_nat (List.length (export_to_excel st search process)) = 1 + total r
    /\ Forall (fun row => List.length row = List.length headers)
         (export_to_excel st search process).
Proof.
  intros Hp Hs. eexists. split; [now apply get_boxes_ok |].
  cbn [total]. unfold export_to_excel. split.
  - cbn [List.length]. rewrite length_map, export_boxes_matching.
    rewrite matching_length. lia.
  - constructor; [reflexivity |]. apply Forall_map, Forall_forall.
    intros b _. reflexivity.
Qed.

End PageTheory.

Lemma get_boxes_page_range_witness :
  exists r,
    @get_boxes reference_backend store_five (Some 4) (Some 2) None None = Ok r
    /\ (items r <> [] <-> 4 <= total_pages r).
Proof.
  destruct (get_boxes_page_range (backend := reference_backend) store_five 4 2
              None None) as (r & Hr & Hiff & _); [lia | lia |].
  now exists r.
Defined.

Lemma list_all_no_duplicates_witness :
  NoDup (@list_all planning_backend store_five 2 None None)
  /\ NoDup (map DB.id (@list_all planning_backend store_five 2 None None)).
Proof.
  destruct (list_all_no_duplicates (backend := planning_backend) store_five 2
              None None) as [_ H].
  - simpl. repeat constructor; simpl; intuition discriminate.
  - lia.
  - apply H. simpl. repeat constructor; simpl; intuition discriminate.
Defined.

Lemma export_sheet_size_witness :
  exists r,
    @get_boxes reference_backend store_five (Some 1) (Some 2) None None = Ok r
    /\ Z.of_nat (List.length
                   (@export_to_excel reference_backend store_five None None))
       = 1 + total r.
Proof.
  destruct (export_sheet_size (backend := reference_backend) store_five 1 2
              None None) as (r & Hr & Hlen & _); [lia | lia |].
  now exists r.
Defined.

(** ** Start-up *)

Lemma startup_loop_spec (create_all : nat -> bool) (max_retries m i sleeps : nat) :
  (i + S m = max_retries)%nat ->
  (forall k,
     startup_loop create_all max_retries (seq i (S m)) sleeps = Returned k <->
     exists j, (i <= j < max_retries)%nat /\ create_all j = true
               /\ (forall l, (i <= l < j)%nat -> create_all l = false)
               /\ k = (sleeps + (j - i))%nat)
  /\ (forall k,
        startup_loop create_all max_retries (seq i (S m)) sleeps = Raised k <->
        (forall l, (i <= l < max_retries)%nat -> create_all l = false)
        /\ k = (sleeps + m)%nat).
Proof.
  revert i sleeps. induction m as [| m IH]; intros i sleeps Hsum.
  - cbn [seq startup_loop].
    destruct (create_all i) eqn:Hi.
    + split; intro k; split.
      * intros [= <-]. exists i. repeat split; [lia | lia | exact Hi | | lia].
        intros l Hl. lia.
      * intros (j & Hj & _ & _ & ->). f_equal. lia.
      * discriminate.
      * intros [Hall _]. rewrite Hall in Hi by lia. discriminate Hi.
    + replace (i <? max_retries - 1)%nat with false
        by (symmetry; apply Nat.ltb_ge; lia).
      split; intro k; split.
      * discriminate.
      * intros (j & Hj & Hjt & _). assert (j = i) by lia. congruence.
      * intros [= <-]. split; [| lia]. intros l Hl.
        assert (l = i) by lia. congruence.
      * intros [_ ->]. f_equal. lia.
  - remember (S m) as m' eqn:Hm'. cbn [seq startup_loop].
    destruct (create_all i) eqn:Hi.
    + split; intro k; split.
      * intros [= <-]. exists i. repeat split; [lia | lia | exact Hi | | lia].
        intros l Hl. lia.
      * intros (j & Hj & _ & Hbefore & ->). f_equal.
        destruct (Nat.eq_dec j i) as [-> | Hne]; [lia |].
        rewrite (Hbefore i) in Hi by lia. discriminate Hi.
      * discriminate.
      * intros [Hall _]. rewrite Hall in Hi by lia. discriminate Hi.
    + replace (i <? max_retries - 1)%nat with true
        by (symmetry; apply Nat.ltb_lt; lia).
      subst m'. destruct (IH (S i) (S sleeps)) as [Hret Hraise]; [lia |].
      split; intro k.
      * rewrite Hret. split.
        -- intros (j & Hj & Hjt & Hbefore & ->). exists j.
           repeat split; [lia | lia | exact Hjt | | lia].
           intros l Hl. destruct (Nat.eq_dec l i) as [-> | Hne];
             [exact Hi | apply Hbefore; lia].
        -- intros (j & Hj & Hjt & Hbefore & ->).
           assert (j <> i) by congruence. exists j.
           repeat split; [lia | lia | exact Hjt | | lia].
           intros l Hl. apply Hbefore. lia.
      * rewrite Hraise. split.
        -- intros [Hall ->]. split; [| lia]. intros l Hl.
           destruct (Nat.eq_dec l i) as [-> | Hne];
             [exact Hi | apply Hall; lia].
        -- intros [Hall ->]. split; [| lia]. intros l Hl. apply Hall. lia.
Qed.

(** X19: [startup] tries at most thirty times, sleeping between tries.
    It returns after [k] sleeps exactly when try [k] is the first one that
    goes through, and it raises, after 29 sleeps, exactly when none of the
    thirty tries goes through. *)
Theorem startup_bounded_retry (create_all : nat -> bool) :
  (forall k,
     startup create_all = Returned k <->
     (k < 30)%nat /\ create_all k = true
     /\ forall l, (l < k)%nat -> create_all l = false)
  /\ (forall k,
        startup create_all = Raised k <->
        k = 29%nat /\ forall l, (l < 30)%nat -> create_all l = false).
Proof.
  unfold startup.
  destruct (startup_loop_spec create_all 30 29 0 0 eq_refl) as [Hret Hraise].
  split; intro k.
  - rewrite Hret. split.
    + intros (j & Hj & Hjt & Hbefore & ->).
      replace (0 + (j - 0))%nat with j by lia.
      repeat split; [lia | exact Hjt |]. intros l Hl. apply Hbefore. lia.
    + intros (Hk & Hkt & Hbefore). exists k.
      repeat split; [lia | lia | exact Hkt | | lia].
      intros l Hl. apply Hbefore. lia.
  - rewrite Hraise. split.
    + intros [Hall ->]. split; [reflexivity |]. intros l Hl. apply Hall. lia.
    + intros [-> Hall]. split; [| reflexivity]. intros l Hl. apply Hall. lia.
Qed.

(** ** Required columns *)

(** X20: a [null] for [mac_address] or [process] is never stored: an
    update that passes validation and sets either of them to [null] on an
    existing box is refused, by the duplicate check or by the column, and
    the table stays as it was. *)
Theorem put_null_required_refused (st : Store) (box_id : Z)
  (body : Update.BoxUpdate) (now : Z) (old : BoxDB) :
  first_by_id (rows st) box_id = Some old ->
  (forall m, Update.mac_address body = Provided (Some m) ->
             BoxBase.validate_mac m = Ok (upper m)) ->
  Update.mac_address body = Provided None
  \/ Update.process body = Provided None ->
  (put_boxes st box_id body now = Err IntegrityError
   \/ put_boxes st box_id body now = Err DuplicateKey)
  /\ store_after st (put_boxes st box_id body now) = st
  /\ (Update.mac_address body = Provided None ->
      put_boxes st box_id body now = Err IntegrityError).
Proof.
  intros Hold Hvalid Hnull.
  assert (Hparse : exists u, Update.parse body = Ok u
                             /\ Update.mac_address u
                                = uppercased (Update.mac_address body)
                             /\ Update.process u
                                = uppercased (Update.process body)).
  { exists (Update.mkBoxUpdate (uppercased (Update.mac_address body))
              (Update.ip_address body) (Update.main_equipment body)
              (Update.location body) (uppercased (Update.process body))
              (Update.manager body) (Update.note body)).
    split; [| split; reflexivity].
    unfold Update.parse.
    replace (match Update.process body with
             | Unset => Unset
             | Provided v => Provided (Update.validate_process v)
             end) with (uppercased (Update.process body))
      by (destruct (Update.process body) as [| [[| c r] |]]; reflexivity).
    destruct (Update.mac_address body) as [| [m |]] eqn:Hm; try reflexivity.
    rewrite update_validate_mac_agrees, (Hvalid m eq_refl). reflexivity. }
  destruct Hparse as (u & Hparse & Hum & Hup).
  assert (H : (put_boxes st box_id body now = Err IntegrityError
               \/ put_boxes st box_id body now = Err DuplicateKey)
              /\ (Update.mac_address body = Provided None ->
                  put_boxes st box_id body now = Err IntegrityError)).
  { unfold put_boxes. rewrite Hparse. unfold update_box. rewrite Hold, Hum, Hup.
    destruct (Update.mac_address body) as [| [m |]] eqn:Hm; cbn [uppercased attr
      option_map set_required].
    - destruct Hnull as [Hnull | Hnull]; [discriminate Hnull |].
      rewrite Hnull. cbn. split; [now left | discriminate].
    - destruct Hnull as [Hnull | Hnull]; [discriminate Hnull |].
      rewrite Hnull. cbn [uppercased option_map set_required].
      split; [| discriminate].
      destruct ((truthy (upper m)
                 && negb (String.eqb (upper m) (DB.mac_address old)))%bool
                && match first_by_mac (rows st) (upper m) with
                   | Some _ => true
                   | None => false
                   end)%bool; [now right | now left].
    - split; [now left | reflexivity]. }
  destruct H as [H Hmac]. split; [exact H |]. split; [| exact Hmac].
  destruct H as [-> | ->]; reflexivity.
Qed.

Lemma put_null_required_refused_witness :
  put_boxes store_one 1
    (Update.mkBoxUpdate Unset Unset Unset Unset (Provided None) Unset Unset) 300
  = Err IntegrityError
  \/ put_boxes store_one 1
       (Update.mkBoxUpdate Unset Unset Unset Unset (Provided None) Unset Unset)
       300
     = Err DuplicateKey.
Proof.
  apply (put_null_required_refused store_one 1
           (Update.mkBoxUpdate Unset Unset Unset Unset (Provided None) Unset
              Unset) 300 box_one).
  - reflexivity.
  - intros m H. discriminate H.
  - right. reflexivity.
Defined.

